(** * im2col / col2im: the patch-matrix transforms of [include/im2col.h]

    A shallow embedding of the two C++ templates [im2col_cpu] and
    [col2im_cpu], and the properties of their index arithmetic.

    Modelling choices.
    - A C [int] is an integer of [Z] between [int_min] and [int_max]
      (32 bits, two's complement).  [+], [-] and [*] on [int] wrap
      around ([wrap]) when a result leaves this range, as the compiled
      code does (the language leaves signed overflow undefined).  [/]
      and [%] are the truncating [Z.quot] and [Z.rem]; a zero divisor
      and the quotient [int_min / -1] trap and have no result, rendered
      as [None].  The results on geometries whose sizes fit
      ([fits_int]) concern runs in which nothing wraps; the results on
      the sizes as the source computes them ([int_height_col] and the
      like) hold whether or not something wrapped.
    - [template <typename Dtype>] is a type with a zero and an addition
      (class [Scalar]); the exact instance used for the algebraic results
      is [Z].
    - A [const Dtype*] buffer is the list of its cells; an access outside
      the cells is undefined behaviour, rendered as [None].  A written
      buffer additionally carries the log of its stores (offset and value
      stored), most recent first, so that "which cells were written, with
      what, and how often" can be stated.  The input and the output buffer
      are distinct objects.
    - A loop [for (int i = 0; i < n; ++i)] runs its body for
      [i = 0, 1, ..., n-1] in this order, threading the written buffer
      (the counter stays below [n], so [++i] cannot overflow). *)

From stdpp Require Import prelude.

Local Open Scope Z_scope.

(** ** Scalars *)

Class Scalar (Dtype : Type) := {
  zero : Dtype;                       (* [Dtype(0)], and the literal [0] *)
  add : Dtype → Dtype → Dtype         (* the [+] behind [+=] *)
}.

#[export] Instance Z_Scalar : Scalar Z := {| zero := 0; add := Z.add |}.

(** ** C [int] arithmetic *)

Definition int_min : Z := -2147483648.
Definition int_max : Z := 2147483647.

Definition int_range (z : Z) : Prop := int_min ≤ z ∧ z ≤ int_max.

(** The value of an arithmetic result that left the range. *)
Definition wrap (z : Z) : Z := (z - int_min) `mod` 4294967296 + int_min.

(** The integer [z] as a value of type [int]: a parameter, a loop
    counter or a literal.  An integer outside the range is not one. *)
Definition int (z : Z) : option Z :=
  if decide (int_min ≤ z ∧ z ≤ int_max) then Some z else None.

(** The operators of the source on [int] operands; an operand without a
    value leaves the result without one. *)
Definition int_add (x y : option Z) : option Z := a ← x; b ← y; Some (wrap (a + b)).
Definition int_sub (x y : option Z) : option Z := a ← x; b ← y; Some (wrap (a - b)).
Definition int_mul (x y : option Z) : option Z := a ← x; b ← y; Some (wrap (a * b)).

Definition int_div (x y : option Z) : option Z :=
  a ← x; b ← y;
  if decide (b = 0 ∨ (a = int_min ∧ b = -1)) then None else Some (a ÷ b).

(** [a % b] traps whenever [a / b] does. *)
Definition int_mod (x y : option Z) : option Z :=
  a ← x; b ← y;
  if decide (b = 0 ∨ (a = int_min ∧ b = -1)) then None else Some (a `rem` b).

Notation "x +ᵢ y" := (int_add x y) (at level 50, left associativity).
Notation "x -ᵢ y" := (int_sub x y) (at level 50, left associativity).
Notation "x *ᵢ y" := (int_mul x y) (at level 40, left associativity).
Notation "x /ᵢ y" := (int_div x y) (at level 40, left associativity).
Notation "x %ᵢ y" := (int_mod x y) (at level 40, left associativity).

(** ** Buffers *)

Definition load {A} (buf : list A) (i : Z) : option A :=
  if decide (0 ≤ i) then buf !! Z.to_nat i else None.

Record outbuf (A : Type) := OutBuf {
  cells : list A;      (* current contents *)
  stores : list (Z * A)  (* the stores done, most recent first *)
}.
Arguments OutBuf {A} _ _.
Arguments cells {A} _.
Arguments stores {A} _.

Definition store {A} (buf : outbuf A) (i : Z) (v : A) : option (outbuf A) :=
  if decide (0 ≤ i < Z.of_nat (length (cells buf)))
  then Some (OutBuf (<[Z.to_nat i := v]> (cells buf)) ((i, v) :: stores buf))
  else None.

(** A caller-supplied buffer on which nothing has been stored yet. *)
Definition fresh {A} (l : list A) : outbuf A := OutBuf l [].

(** ** Loops *)

Fixpoint foldM {A S} (body : A → S → option S) (l : list A) (s : S) : option S :=
  match l with
  | [] => Some s
  | x :: l' => s' ← body x s; foldM body l' s'
  end.

(** [for (int i = 0; i < n; ++i) body] *)
Definition for_range {S} (n : Z) (body : Z → S → option S) (s : S) : option S :=
  foldM body (seqZ 0 n) s.

(** ** The two transforms, as in the source *)

Section Transforms.
Context `{Scalar Dtype}.

Definition im2col_cpu (data_im : list Dtype)
    (channels height width kernel_h kernel_w pad_h pad_w stride_h stride_w : Z)
    (data_col : outbuf Dtype) : option (outbuf Dtype) :=
  height_col ←
    (int height +ᵢ int 2 *ᵢ int pad_h -ᵢ int kernel_h) /ᵢ int stride_h +ᵢ int 1;
  width_col ←
    (int width +ᵢ int 2 *ᵢ int pad_w -ᵢ int kernel_w) /ᵢ int stride_w +ᵢ int 1;
  channels_col ← int channels *ᵢ int kernel_h *ᵢ int kernel_w;
  for_range channels_col (λ c data_col,
    w_offset ← int c %ᵢ int kernel_w;
    h_offset ← (int c /ᵢ int kernel_w) %ᵢ int kernel_h;
    c_im ← int c /ᵢ int kernel_h /ᵢ int kernel_w;
    for_range height_col (λ h data_col,
      for_range width_col (λ w data_col,
        h_pad ← int h *ᵢ int stride_h -ᵢ int pad_h +ᵢ int h_offset;
        w_pad ← int w *ᵢ int stride_w -ᵢ int pad_w +ᵢ int w_offset;
        if (h_pad >=? 0) && (h_pad <? height) && (w_pad >=? 0) && (w_pad <? width)
        then
          i_col ← int channels_col *ᵢ int width_col *ᵢ int h
                  +ᵢ int channels_col *ᵢ int w +ᵢ int c;
          i_im ← (int c_im *ᵢ int height +ᵢ int h_pad) *ᵢ int width +ᵢ int w_pad;
          v ← load data_im i_im;
          store data_col i_col v
        else
          i_col ← int channels_col *ᵢ int width_col *ᵢ int h
                  +ᵢ int channels_col *ᵢ int w +ᵢ int c;
          store data_col i_col zero
      ) data_col
    ) data_col
  ) data_col.

Definition col2im_cpu (data_col : list Dtype)
    (channels height width patch_h patch_w pad_h pad_w stride_h stride_w : Z)
    (data_im : outbuf Dtype) : option (outbuf Dtype) :=
  n ← int height *ᵢ int width *ᵢ int channels;
  data_im ← for_range n (λ i data_im, store data_im i zero) data_im;
  height_col ←
    (int height +ᵢ int 2 *ᵢ int pad_h -ᵢ int patch_h) /ᵢ int stride_h +ᵢ int 1;
  width_col ←
    (int width +ᵢ int 2 *ᵢ int pad_w -ᵢ int patch_w) /ᵢ int stride_w +ᵢ int 1;
  channels_col ← int channels *ᵢ int patch_h *ᵢ int patch_w;
  for_range channels_col (λ c data_im,
    w_offset ← int c %ᵢ int patch_w;
    h_offset ← (int c /ᵢ int patch_w) %ᵢ int patch_h;
    c_im ← int c /ᵢ int patch_h /ᵢ int patch_w;
    for_range height_col (λ h data_im,
      for_range width_col (λ w data_im,
        h_pad ← int h *ᵢ int stride_h -ᵢ int pad_h +ᵢ int h_offset;
        w_pad ← int w *ᵢ int stride_w -ᵢ int pad_w +ᵢ int w_offset;
        if (h_pad >=? 0) && (h_pad <? height) && (w_pad >=? 0) && (w_pad <? width)
        then
          i_im ← (int c_im *ᵢ int height +ᵢ int h_pad) *ᵢ int width +ᵢ int w_pad;
          i_col ← int channels_col *ᵢ int width_col *ᵢ int h
                  +ᵢ int channels_col *ᵢ int w +ᵢ int c;
          v ← load data_col i_col;
          old ← load (cells data_im) i_im;
          store data_im i_im (add old v)
        else Some data_im
      ) data_im
    ) data_im
  ) data_im.
End Transforms.

(** ** Geometry *)

Record geometry := Geometry {
  channels : Z; height : Z; width : Z;
  kernel_h : Z; kernel_w : Z;
  pad_h : Z; pad_w : Z;
  stride_h : Z; stride_w : Z
}.

Definition Unfold `{Scalar Dtype} (g : geometry) (image : list Dtype)
    (patch : outbuf Dtype) : option (outbuf Dtype) :=
  im2col_cpu image (channels g) (height g) (width g) (kernel_h g) (kernel_w g)
    (pad_h g) (pad_w g) (stride_h g) (stride_w g) patch.

Definition Fold `{Scalar Dtype} (g : geometry) (patch : list Dtype)
    (image : outbuf Dtype) : option (outbuf Dtype) :=
  col2im_cpu patch (channels g) (height g) (width g) (kernel_h g) (kernel_w g)
    (pad_h g) (pad_w g) (stride_h g) (stride_w g) image.

(** ** Vocabulary of the statements *)

(** Derived sizes, by the formulas of the source in exact integers. *)
Definition height_col (g : geometry) : Z :=
  (height g + 2 * pad_h g - kernel_h g) ÷ stride_h g + 1.
Definition width_col (g : geometry) : Z :=
  (width g + 2 * pad_w g - kernel_w g) ÷ stride_w g + 1.
Definition channels_col (g : geometry) : Z :=
  channels g * kernel_h g * kernel_w g.

Definition image_size (g : geometry) : Z := channels g * height g * width g.
Definition patch_size (g : geometry) : Z :=
  height_col g * width_col g * channels_col g.

(** Linear offsets of the two layouts. *)
Definition slot (g : geometry) (h w c : Z) : Z :=
  channels_col g * width_col g * h + channels_col g * w + c.
Definition im_offset (g : geometry) (c_im row col : Z) : Z :=
  (c_im * height g + row) * width g + col.

(** The decode of a composite index, in the words of the specification:
    floor division and modulus, the channel by the product of the kernel
    sizes. *)
Definition dec_w (g : geometry) (c : Z) : Z := c `mod` kernel_w g.
Definition dec_h (g : geometry) (c : Z) : Z := (c `div` kernel_w g) `mod` kernel_h g.
Definition dec_c (g : geometry) (c : Z) : Z := c `div` (kernel_h g * kernel_w g).
Definition row_of (g : geometry) (h c : Z) : Z := h * stride_h g - pad_h g + dec_h g c.
Definition col_of (g : geometry) (w c : Z) : Z := w * stride_w g - pad_w g + dec_w g c.

Definition inside (g : geometry) (h w c : Z) : bool :=
  (0 <=? row_of g h c) && (row_of g h c <? height g) &&
  (0 <=? col_of g w c) && (col_of g w c <? width g).

(** The index space of both loop nests, in the order the loops visit it. *)
Definition triples (g : geometry) : list (Z * Z * Z) :=
  c ← seqZ 0 (channels_col g);
  h ← seqZ 0 (height_col g);
  w ← seqZ 0 (width_col g);
  [(c, h, w)].

(** Sizes the specification asks of a geometry (the paddings are free). *)
Definition positive_sizes (g : geometry) : Prop :=
  1 ≤ channels g ∧ 1 ≤ height g ∧ 1 ≤ width g ∧
  1 ≤ kernel_h g ∧ 1 ≤ kernel_w g ∧ 1 ≤ stride_h g ∧ 1 ≤ stride_w g.

(** The derived sizes and the number of image cells as the source
    computes them in [int]: wrapped when a step leaves the range, and
    without a value when the division traps. *)
Definition int_height_col (g : geometry) : option Z :=
  (int (height g) +ᵢ int 2 *ᵢ int (pad_h g) -ᵢ int (kernel_h g))
    /ᵢ int (stride_h g) +ᵢ int 1.
Definition int_width_col (g : geometry) : option Z :=
  (int (width g) +ᵢ int 2 *ᵢ int (pad_w g) -ᵢ int (kernel_w g))
    /ᵢ int (stride_w g) +ᵢ int 1.
Definition int_channels_col (g : geometry) : option Z :=
  int (channels g) *ᵢ int (kernel_h g) *ᵢ int (kernel_w g).
Definition int_image_size (g : geometry) : option Z :=
  int (height g) *ᵢ int (width g) *ᵢ int (channels g).

(** Sizes that keep every [int] expression of the two transforms in
    range, on a geometry with positive sizes, so that nothing wraps: the
    padded extents, the strides, and the sizes of the two buffers are at
    most [int_max]. *)
Definition fits_int (g : geometry) : Prop :=
  height g + 2 * Z.abs (pad_h g) + kernel_h g ≤ int_max ∧
  width g + 2 * Z.abs (pad_w g) + kernel_w g ≤ int_max ∧
  stride_h g ≤ int_max ∧ stride_w g ≤ int_max ∧
  channels_col g ≤ int_max ∧ image_size g ≤ int_max ∧
  (1 ≤ height_col g → 1 ≤ width_col g → patch_size g ≤ int_max).

Fixpoint sumZ (l : list Z) : Z :=
  match l with
  | [] => 0
  | x :: l' => x + sumZ l'
  end.

(** Index triples [(c, h, w)], as the loops enumerate them. *)
Definition slot_of (g : geometry) (t : Z * Z * Z) : Z :=
  let '(c, h, w) := t in slot g h w c.
Definition inside_at (g : geometry) (t : Z * Z * Z) : bool :=
  let '(c, h, w) := t in inside g h w c.
Definition target (g : geometry) (t : Z * Z * Z) : Z :=
  let '(c, h, w) := t in im_offset g (dec_c g c) (row_of g h c) (col_of g w c).

(** The index triple decodes exactly to channel [ci], row [r], column [q]. *)
Definition lands (g : geometry) (ci r q : Z) (t : Z * Z * Z) : bool :=
  let '(c, h, w) := t in
  (dec_c g c =? ci) && (row_of g h c =? r) && (col_of g w c =? q).

(** The index triples that land on an image location, in loop order;
    their number is the coverage count of the location. *)
Definition covering (g : geometry) (ci r q : Z) : list (Z * Z * Z) :=
  filter (lands g ci r q) (triples g).

(** The output rows whose kernel window contains image row [r], and the
    output columns whose window contains image column [q]. *)
Definition row_cover (g : geometry) (r : Z) : list Z :=
  filter (λ h, 0 ≤ r - (h * stride_h g - pad_h g) < kernel_h g)
         (seqZ 0 (height_col g)).
Definition col_cover (g : geometry) (q : Z) : list Z :=
  filter (λ w, 0 ≤ q - (w * stride_w g - pad_w g) < kernel_w g)
         (seqZ 0 (width_col g)).

(** ** Runs of stores and of additions *)

(** A run of stores, each of a value fixed in advance. *)
Definition run_stores {A} (ws : list (Z * A)) (b : outbuf A) : option (outbuf A) :=
  foldM (λ w b, store b w.1 w.2) ws b.

Definition in_range {A} (n : nat) (w : Z * A) : Prop := 0 ≤ w.1 < Z.of_nat n.

Section RunDefinitions.
Context `{Scalar Dtype}.
Implicit Types (g : geometry) (b : outbuf Dtype) (t : Z * Z * Z).

(** A run of [buf[i] += v] updates. *)
Definition run_adds (us : list (Z * Dtype)) b : option (outbuf Dtype) :=
  foldM (λ u b, old ← load (cells b) u.1; store b u.1 (add old u.2)) us b.

(** The values a run adds to the cell at offset [j], in order. *)
Definition added_at (j : Z) (us : list (Z * Dtype)) : list Dtype :=
  (filter (λ u, u.1 = j) us).*2.

(** The stores of the zero-filling loop of [col2im_cpu]. *)
Definition zero_stores (n : Z) : list (Z * Dtype) := (λ i, (i, zero)) <$> seqZ 0 n.

(** One iteration of the innermost loop of [im2col_cpu] in exact
    integers, with the decode of the enclosing iteration substituted:
    what the iteration does when nothing wraps ([Unfold_loops]). *)
Definition im2col_body g (data_im : list Dtype) t b : option (outbuf Dtype) :=
  let '(c, h, w) := t in
  let h_pad := h * stride_h g - pad_h g + (c ÷ kernel_w g) `rem` kernel_h g in
  let w_pad := w * stride_w g - pad_w g + c `rem` kernel_w g in
  if (h_pad >=? 0) && (h_pad <? height g) && (w_pad >=? 0) && (w_pad <? width g)
  then
    v ← load data_im ((c ÷ kernel_h g ÷ kernel_w g * height g + h_pad) * width g + w_pad);
    store b (slot g h w c) v
  else
    store b (slot g h w c) zero.

(** One iteration of the innermost loop of [col2im_cpu], likewise in
    exact integers. *)
Definition col2im_body g (data_col : list Dtype) t b : option (outbuf Dtype) :=
  let '(c, h, w) := t in
  let h_pad := h * stride_h g - pad_h g + (c ÷ kernel_w g) `rem` kernel_h g in
  let w_pad := w * stride_w g - pad_w g + c `rem` kernel_w g in
  if (h_pad >=? 0) && (h_pad <? height g) && (w_pad >=? 0) && (w_pad <? width g)
  then
    v ← load data_col (slot g h w c);
    old ← load (cells b) ((c ÷ kernel_h g ÷ kernel_w g * height g + h_pad) * width g + w_pad);
    store b ((c ÷ kernel_h g ÷ kernel_w g * height g + h_pad) * width g + w_pad) (add old v)
  else Some b.

(** The value of cell [i] of a buffer (zero outside it). *)
Definition value_at (l : list Dtype) (i : Z) : Dtype := default zero (load l i).

(** The value Unfold stores for an index triple. *)
Definition entry g (image : list Dtype) t : Dtype :=
  if inside_at g t then value_at image (target g t) else zero.

Definition unfold_stores g (image : list Dtype) : list (Z * Dtype) :=
  (λ t, (slot_of g t, entry g image t)) <$> triples g.

(** The additions Fold makes: one per index triple that lands inside. *)
Definition fold_adds g (patch : list Dtype) : list (Z * Dtype) :=
  (λ t, (target g t, value_at patch (slot_of g t)))
    <$> filter (inside_at g) (triples g).

End RunDefinitions.

(** ** Concrete geometries *)

(** One channel, a 4x4 image, a 3x3 kernel, no padding, stride 1. *)
Definition g443 : geometry := Geometry 1 4 4 3 3 0 0 1 1.
Definition image16 : list Z := [1; 2; 3; 4; 5; 6; 7; 8; 9; 10; 11; 12; 13; 14; 15; 16].

(** The same with one cell of padding on every side. *)
Definition g443_pad1 : geometry := Geometry 1 4 4 3 3 1 1 1 1.

(** A geometry whose kernel exceeds the padded image by a full stride. *)
Definition g_degenerate : geometry := Geometry 1 2 2 5 5 0 0 1 1.

(** A geometry whose stride skips image rows and columns. *)
Definition g_skip : geometry := Geometry 1 3 3 1 1 0 0 2 2.

(** Kernel 2x2 at stride 2 on a 4x4 image: the patches tile the image. *)
Definition g_tile : geometry := Geometry 1 4 4 2 2 0 0 2 2.

(** ** Vocabulary of the further properties *)

(** The inner product of two buffers of integers. *)
Definition dot (l1 l2 : list Z) : Z := sumZ (zip_with Z.mul l1 l2).

(** A buffer of integers multiplied cell by cell by [k]. *)
Definition scale (k : Z) (l : list Z) : list Z := Z.mul k <$> l.

(** The pairs of an output row and an output column whose windows contain
    image row [r] and image column [q]. *)
Definition windows (g : geometry) (r q : Z) : list (Z * Z) :=
  h ← row_cover g r; w ← col_cover g q; [(h, w)].

(** The composite index of channel [ci] at kernel offsets [(i, j)]. *)
Definition compose (g : geometry) (ci i j : Z) : Z :=
  ci * (kernel_h g * kernel_w g) + i * kernel_w g + j.

(** A kernel of width zero: the index space is empty. *)
Definition g_kernel0 : geometry := Geometry 1 2 2 3 0 0 0 1 1.

(** A stride of zero. *)
Definition g_stride0 : geometry := Geometry 1 4 4 3 3 0 0 0 1.

(** A 3x3 kernel at stride 2 on a 2x2 image: the kernel exceeds the image
    by less than one stride. *)
Definition g_overhang : geometry := Geometry 1 2 2 3 3 0 0 2 2.

(** A padding whose double leaves the [int] range. *)
Definition g_wrap : geometry := Geometry 1 1 1 1 1 1073741824 0 2147483647 1.

(** The same padding under a stride that makes the wrapped height
    negative. *)
Definition g_wrap_neg : geometry := Geometry 1 1 1 1 1 1073741824 0 1073741824 1.

(** A product [channels * kernel_h * kernel_w] that wraps from below zero
    to 2. *)
Definition g_wrap_channels : geometry :=
  Geometry 2 2147483647 1 2147483647 (-1) 0 0 1 1.

(** An image of [2^31] cells (and a kernel of width zero). *)
Definition g_wrap_fill : geometry := Geometry 1 65536 32768 1 0 0 0 1 1.

(** A kernel far taller than the padded image, whose excess wraps. *)
Definition g_wrap_pos : geometry := Geometry 1 1 1 2147483647 1 (-1073741824) 0 1 1.

(** A stride of -1 under the dividend [int_min]. *)
Definition g_trap : geometry := Geometry 1 1 1 1 1 (-1073741824) 0 (-1) 1.

(** * Properties *)

(** ** Loops *)

Section Loops.
Context {S : Type}.

Lemma foldM_app {A} (f : A → S → option S) l1 l2 s :
  foldM f (l1 ++ l2) s = foldM f l1 s ≫= foldM f l2.
Proof.
  revert s. induction l1 as [|x l1 IH]; intros s; simpl; [done|].
  destruct (f x s); simpl; [apply IH|done].
Qed.

Lemma foldM_ext_in {A} (f f' : A → S → option S) l s :
  (∀ x s, x ∈ l → f x s = f' x s) → foldM f l s = foldM f' l s.
Proof.
  revert s. induction l as [|x l IH]; intros s Hf; simpl; [done|].
  rewrite Hf by left. destruct (f' x s); simpl; [|done].
  apply IH. intros. apply Hf. by right.
Qed.


Lemma foldM_filter {A} (p : A → bool) (f : A → S → option S) l s :
  foldM (λ x s, if p x then f x s else Some s) l s = foldM f (filter p l) s.
Proof.
  revert s. induction l as [|x l IH]; intros s; simpl; [done|].
  destruct (p x) eqn:Hp.
  - rewrite filter_cons_True by (by rewrite Hp). simpl.
    destruct (f x s); simpl; [apply IH|done].
  - rewrite filter_cons_False by (rewrite Hp; exact id). apply IH.
Qed.

Lemma foldM_nest3 {A B C} (f : A → B → C → S → option S) la lb lc s :
  foldM (λ a, foldM (λ b, foldM (f a b) lc) lb) la s
  = foldM (λ t : A * B * C, f t.1.1 t.1.2 t.2)
      (a ← la; b ← lb; c ← lc; [(a, b, c)]) s.
Proof.
  revert s. induction la as [|a la IHa]; intros s; [done|].
  cbn [foldM]. rewrite bind_cons, foldM_app.
  assert (∀ s, foldM (λ b, foldM (f a b) lc) lb s
    = foldM (λ t : A * B * C, f t.1.1 t.1.2 t.2)
        (b ← lb; c ← lc; [(a, b, c)]) s) as ->.
  { clear. induction lb as [|b lb IHb]; intros s; [done|].
    cbn [foldM]. rewrite bind_cons, foldM_app.
    assert (∀ s, foldM (f a b) lc s
      = foldM (λ t : A * B * C, f t.1.1 t.1.2 t.2) (c ← lc; [(a, b, c)]) s) as ->.
    { clear. induction lc as [|c lc IHc]; intros s; [done|].
      cbn [foldM]. rewrite bind_cons. simpl.
      destruct (f a b c s); simpl; [apply IHc|done]. }
    destruct (foldM _ _ s); simpl; [apply IHb|done]. }
  destruct (foldM _ _ s); simpl; [apply IHa|done].
Qed.
End Loops.

(** ** Buffers: loads, stores, and runs of stores *)

Section Buffers.
Context {A : Type}.
Implicit Types (l : list A) (b : outbuf A) (i j : Z) (v : A).

Lemma load_Some_iff l j : is_Some (load l j) ↔ 0 ≤ j < Z.of_nat (length l).
Proof.
  unfold load. case_decide.
  - rewrite lookup_lt_is_Some. lia.
  - split; [by intros [? ?]|lia].
Qed.

Lemma load_None_iff l j : load l j = None ↔ ¬ (0 ≤ j < Z.of_nat (length l)).
Proof. rewrite <-load_Some_iff, eq_None_not_Some. done. Qed.

Lemma load_insert l i j v :
  0 ≤ i < Z.of_nat (length l) →
  load (<[Z.to_nat i := v]> l) j = if decide (j = i) then Some v else load l j.
Proof.
  intros Hi. unfold load. case_decide as Hj.
  - case_decide as Hji.
    + subst j. apply list_lookup_insert_eq. lia.
    + apply list_lookup_insert_ne. lia.
  - rewrite decide_False by lia. done.
Qed.

Lemma load_ext l l' :
  length l = length l' → (∀ j, load l j = load l' j) → l = l'.
Proof.
  intros Hlen Hl. apply list_eq. intros n.
  specialize (Hl (Z.of_nat n)). unfold load in Hl.
  rewrite !decide_True, Nat2Z.id in Hl by lia. done.
Qed.

Lemma store_Some b i v :
  0 ≤ i < Z.of_nat (length (cells b)) →
  store b i v = Some (OutBuf (<[Z.to_nat i := v]> (cells b)) ((i, v) :: stores b)).
Proof. intros. unfold store. by rewrite decide_True. Qed.

Lemma run_stores_spec ws b :
  Forall (in_range (length (cells b))) ws →
  ∃ b', run_stores ws b = Some b'
    ∧ length (cells b') = length (cells b)
    ∧ stores b' = reverse ws ++ stores b
    ∧ (∀ j, j ∉ ws.*1 → load (cells b') j = load (cells b) j)
    ∧ (NoDup ws.*1 → ∀ w, w ∈ ws → load (cells b') w.1 = Some w.2).
Proof.
  revert b. induction ws as [|[i v] ws IH]; intros b Hws.
  { exists b. split_and!; try done. intros _ w Hw. by apply elem_of_nil in Hw. }
  apply Forall_cons in Hws as [Hi Hws]. unfold in_range in Hi. simpl in Hi.
  unfold run_stores. cbn [foldM]. simpl. rewrite store_Some by done. simpl.
  destruct (IH (OutBuf (<[Z.to_nat i:=v]> (cells b)) ((i, v) :: stores b)))
    as (b' & Hrun & Hlen & Hlog & Hold & Hnew).
  { simpl. by rewrite length_insert. }
  simpl in *. rewrite length_insert in Hlen.
  exists b'. split_and!; try done.
  - rewrite Hlog, reverse_cons, <-app_assoc. done.
  - intros j Hj. rewrite not_elem_of_cons in Hj. destruct Hj as [Hji Hj].
    rewrite Hold, load_insert by done. by rewrite decide_False.
  - intros Hnd w Hw. apply NoDup_cons in Hnd as [Hi' Hnd].
    apply elem_of_cons in Hw as [->|Hw]; simpl.
    + rewrite Hold, load_insert by done. by rewrite decide_True.
    + by apply Hnew.
Qed.
End Buffers.

(** Closes [load l j = load l' j] when [j] is outside both buffers. *)
Ltac outside_both :=
  etrans; [|symmetry]; apply load_None_iff;
  rewrite ?length_zip_with, ?length_replicate; lia.

Section Accumulate.
Context `{Scalar Dtype}.
Implicit Types (b : outbuf Dtype).

Lemma run_adds_spec us b :
  Forall (in_range (length (cells b))) us →
  ∃ b' later, run_adds us b = Some b'
    ∧ length (cells b') = length (cells b)
    ∧ stores b' = later ++ stores b
    ∧ later.*1 = reverse us.*1
    ∧ ∀ j, load (cells b') j = (λ x, foldl add x (added_at j us)) <$> load (cells b) j.
Proof.
  revert b. induction us as [|[i v] us IH]; intros b Hus.
  { exists b, []. split_and!; try done. intros j. by destruct (load _ j). }
  apply Forall_cons in Hus as [Hi Hus]. unfold in_range in Hi. simpl in Hi.
  unfold run_adds. cbn [foldM]. simpl.
  destruct (proj2 (load_Some_iff (cells b) i) Hi) as [old Hold].
  rewrite Hold. simpl. rewrite store_Some by done. simpl.
  destruct (IH (OutBuf (<[Z.to_nat i:=add old v]> (cells b)) ((i, add old v) :: stores b)))
    as (b' & later & Hrun & Hlen & Hlog & Hlater & Hval).
  { simpl. by rewrite length_insert. }
  simpl in *. rewrite length_insert in Hlen.
  exists b', (later ++ [(i, add old v)]). split_and!; try done.
  - rewrite Hlog, <-app_assoc. done.
  - rewrite fmap_app, Hlater, reverse_cons. done.
  - intros j. rewrite Hval, load_insert by done. unfold added_at.
    case_decide as Hj.
    + subst j. rewrite filter_cons_True by done. simpl. by rewrite Hold.
    + rewrite filter_cons_False by (simpl; congruence). done.
Qed.
End Accumulate.

(** ** Index arithmetic *)

Section Arithmetic.
Variable g : geometry.

(** The source decodes with truncating [/] and [%] and divides twice;
    on a non-negative composite index this is the floor decode. *)
Lemma code_dec_w c : 0 ≤ c → 1 ≤ kernel_w g → c `rem` kernel_w g = dec_w g c.
Proof. intros. unfold dec_w. apply Z.rem_mod_nonneg; lia. Qed.

Lemma code_dec_h c :
  0 ≤ c → 1 ≤ kernel_h g → 1 ≤ kernel_w g →
  (c ÷ kernel_w g) `rem` kernel_h g = dec_h g c.
Proof.
  intros. unfold dec_h. rewrite Z.quot_div_nonneg by lia.
  apply Z.rem_mod_nonneg; [apply Z.div_pos|]; lia.
Qed.

Lemma code_dec_c c :
  0 ≤ c → 1 ≤ kernel_h g → 1 ≤ kernel_w g →
  c ÷ kernel_h g ÷ kernel_w g = dec_c g c.
Proof.
  intros. unfold dec_c. rewrite (Z.quot_div_nonneg c) by lia.
  rewrite Z.quot_div_nonneg by (try apply Z.div_pos; lia).
  apply Z.div_div; lia.
Qed.

Lemma dec_w_range c : 1 ≤ kernel_w g → 0 ≤ dec_w g c < kernel_w g.
Proof. intros. apply Z.mod_pos_bound. lia. Qed.

Lemma dec_h_range c : 1 ≤ kernel_h g → 0 ≤ dec_h g c < kernel_h g.
Proof. intros. apply Z.mod_pos_bound. lia. Qed.

Lemma dec_c_range c :
  1 ≤ kernel_h g → 1 ≤ kernel_w g →
  0 ≤ c < channels_col g → 0 ≤ dec_c g c < channels g.
Proof.
  intros ?? [Hc0 Hc]. unfold dec_c, channels_col in *. split.
  - apply Z.div_pos; nia.
  - apply Z.div_lt_upper_bound; nia.
Qed.

(** The composite index is the mixed-radix number of its decode. *)
Lemma dec_compose c :
  1 ≤ kernel_h g → 1 ≤ kernel_w g →
  c = dec_c g c * (kernel_h g * kernel_w g) + dec_h g c * kernel_w g + dec_w g c.
Proof.
  intros. unfold dec_c, dec_h, dec_w.
  rewrite (Z.mul_comm (kernel_h g) (kernel_w g)) at 1.
  rewrite <-Z.div_div by lia.
  pose proof (Z.div_mod c (kernel_w g)).
  pose proof (Z.div_mod (c `div` kernel_w g) (kernel_h g)).
  nia.
Qed.

Lemma dec_of_compose ci i j :
  0 ≤ i < kernel_h g → 0 ≤ j < kernel_w g →
  let c := ci * (kernel_h g * kernel_w g) + i * kernel_w g + j in
  dec_c g c = ci ∧ dec_h g c = i ∧ dec_w g c = j.
Proof.
  intros Hi Hj c. pose proof (dec_compose c) as Hc.
  pose proof (dec_w_range c). pose proof (dec_h_range c).
  assert (kernel_w g * (dec_c g c * kernel_h g + dec_h g c) + dec_w g c
          = kernel_w g * (ci * kernel_h g + i) + j) as Heq by (subst c; lia).
  apply Z.div_mod_unique in Heq as [Heq ?]; [|lia..].
  assert (kernel_h g * dec_c g c + dec_h g c = kernel_h g * ci + i) as Heq'
    by lia.
  apply Z.div_mod_unique in Heq' as [? ?]; [|lia..]. done.
Qed.

(** The patch layout: [slot] is one-to-one from the index space onto
    the offsets below [patch_size]. *)
Lemma slot_range h w c :
  0 ≤ h < height_col g → 0 ≤ w < width_col g → 0 ≤ c < channels_col g →
  0 ≤ slot g h w c < patch_size g.
Proof.
  unfold slot, patch_size. intros Hh Hw Hc.
  set (cc := channels_col g) in *. set (wc := width_col g) in *.
  assert (0 ≤ cc * w ≤ cc * (wc - 1)) by nia.
  assert (0 ≤ cc * wc) by nia.
  assert (0 ≤ cc * wc * h ∧ cc * wc * (h + 1) ≤ cc * wc * height_col g) by nia.
  lia.
Qed.

Lemma slot_inj h w c h' w' c' :
  0 ≤ w < width_col g → 0 ≤ c < channels_col g →
  0 ≤ w' < width_col g → 0 ≤ c' < channels_col g →
  slot g h w c = slot g h' w' c' → h = h' ∧ w = w' ∧ c = c'.
Proof.
  unfold slot. intros ???? Heq.
  assert (channels_col g * (width_col g * h + w) + c
          = channels_col g * (width_col g * h' + w') + c') as Heq1 by lia.
  apply Z.div_mod_unique in Heq1 as [Heq2 ?]; [|lia..].
  apply Z.div_mod_unique in Heq2 as [? ?]; [|lia..]. done.
Qed.

Lemma slot_surj j :
  0 ≤ j < patch_size g → 1 ≤ width_col g → 1 ≤ channels_col g →
  ∃ h w c, 0 ≤ h < height_col g ∧ 0 ≤ w < width_col g
    ∧ 0 ≤ c < channels_col g ∧ slot g h w c = j.
Proof.
  unfold patch_size, slot. intros Hj ??.
  set (cc := channels_col g) in *. set (wc := width_col g) in *.
  exists ((j `div` cc) `div` wc), ((j `div` cc) `mod` wc), (j `mod` cc).
  pose proof (Z.div_mod j cc). pose proof (Z.div_mod (j `div` cc) wc).
  pose proof (Z.mod_pos_bound j cc). pose proof (Z.mod_pos_bound (j `div` cc) wc).
  assert (0 ≤ j `div` cc) by (apply Z.div_pos; lia).
  assert (0 ≤ (j `div` cc) `div` wc) by (apply Z.div_pos; lia).
  assert ((j `div` cc) `div` wc < height_col g).
  { apply Z.div_lt_upper_bound; [lia|]. apply Z.div_lt_upper_bound; nia. }
  split_and!; lia.
Qed.

(** The image layout. *)
Lemma im_offset_range ci r q :
  0 ≤ ci < channels g → 0 ≤ r < height g → 0 ≤ q < width g →
  0 ≤ im_offset g ci r q < image_size g.
Proof.
  unfold im_offset, image_size. intros Hc Hr Hq.
  assert (0 ≤ ci * height g + r ≤ channels g * height g - 1) by nia.
  assert (0 ≤ (ci * height g + r) * width g
          ≤ (channels g * height g - 1) * width g) by nia.
  lia.
Qed.

Lemma im_offset_inj ci r q ci' r' q' :
  0 ≤ r < height g → 0 ≤ q < width g →
  0 ≤ r' < height g → 0 ≤ q' < width g →
  im_offset g ci r q = im_offset g ci' r' q' → ci = ci' ∧ r = r' ∧ q = q'.
Proof.
  unfold im_offset. intros ???? Heq.
  assert (width g * (height g * ci + r) + q
          = width g * (height g * ci' + r') + q') as Heq1 by lia.
  apply Z.div_mod_unique in Heq1 as [Heq2 ?]; [|lia..].
  apply Z.div_mod_unique in Heq2 as [? ?]; [|lia..]. done.
Qed.

Lemma im_offset_surj j :
  0 ≤ j < image_size g → 1 ≤ height g → 1 ≤ width g →
  ∃ ci r q, 0 ≤ ci < channels g ∧ 0 ≤ r < height g ∧ 0 ≤ q < width g
    ∧ im_offset g ci r q = j.
Proof.
  unfold image_size, im_offset. intros Hj Hh1 Hw1.
  set (hh := height g) in *. set (ww := width g) in *.
  exists ((j `div` ww) `div` hh), ((j `div` ww) `mod` hh), (j `mod` ww).
  pose proof (Z.div_mod j ww). pose proof (Z.div_mod (j `div` ww) hh).
  pose proof (Z.mod_pos_bound j ww). pose proof (Z.mod_pos_bound (j `div` ww) hh).
  assert (0 ≤ j `div` ww) by (apply Z.div_pos; lia).
  assert (0 ≤ (j `div` ww) `div` hh) by (apply Z.div_pos; lia).
  assert ((j `div` ww) `div` hh < channels g).
  { apply Z.div_lt_upper_bound; [lia|]. apply Z.div_lt_upper_bound; nia. }
  split_and!; lia.
Qed.

Lemma inside_spec h w c :
  inside g h w c = true ↔
  0 ≤ row_of g h c < height g ∧ 0 ≤ col_of g w c < width g.
Proof. unfold inside. rewrite !andb_true_iff. lia. Qed.

(** The index space. *)
Lemma elem_of_triples c h w :
  (c, h, w) ∈ triples g ↔
  0 ≤ c < channels_col g ∧ 0 ≤ h < height_col g ∧ 0 ≤ w < width_col g.
Proof.
  unfold triples. rewrite list_elem_of_bind. split.
  - intros (c' & Hin & Hc). apply list_elem_of_bind in Hin as (h' & Hin & Hh).
    apply list_elem_of_bind in Hin as (w' & Hin & Hw).
    apply list_elem_of_singleton in Hin. simplify_eq.
    rewrite elem_of_seqZ in Hc, Hh, Hw. lia.
  - intros (Hc & Hh & Hw). exists c. rewrite elem_of_seqZ. split; [|lia].
    apply list_elem_of_bind. exists h. rewrite elem_of_seqZ. split; [|lia].
    apply list_elem_of_bind. exists w. rewrite elem_of_seqZ. split; [|lia].
    by apply list_elem_of_singleton.
Qed.

Lemma NoDup_triples : NoDup (triples g).
Proof.
  unfold triples. apply NoDup_bind; [| |apply NoDup_seqZ].
  { intros c1 c2 t _ _ H1 H2.
    apply list_elem_of_bind in H1 as (? & H1 & _).
    apply list_elem_of_bind in H1 as (? & H1%list_elem_of_singleton & _).
    apply list_elem_of_bind in H2 as (? & H2 & _).
    apply list_elem_of_bind in H2 as (? & H2%list_elem_of_singleton & _).
    congruence. }
  intros c _. apply NoDup_bind; [| |apply NoDup_seqZ].
  { intros h1 h2 t _ _ H1 H2.
    apply list_elem_of_bind in H1 as (? & H1%list_elem_of_singleton & _).
    apply list_elem_of_bind in H2 as (? & H2%list_elem_of_singleton & _).
    congruence. }
  intros h _. apply NoDup_bind; [| |apply NoDup_seqZ].
  { intros w1 w2 t _ _ H1%list_elem_of_singleton H2%list_elem_of_singleton.
    congruence. }
  intros w _. apply NoDup_singleton.
Qed.

Lemma triples_nil :
  height_col g ≤ 0 ∨ width_col g ≤ 0 → triples g = [].
Proof.
  intros Hdeg. destruct (triples g) as [|[[c h] w] l] eqn:Ht; [done|].
  assert ((c, h, w) ∈ triples g) as Hin by (rewrite Ht; left).
  apply elem_of_triples in Hin. lia.
Qed.
End Arithmetic.

(** ** Evaluating [int] expressions *)

Lemma wrap_id z : int_range z → wrap z = z.
Proof.
  unfold int_range, wrap, int_min, int_max. intros ?.
  rewrite Z.mod_small; lia.
Qed.

Lemma wrap_range z : int_range (wrap z).
Proof.
  unfold int_range, wrap, int_min, int_max.
  pose proof (Z.mod_pos_bound (z - -2147483648) 4294967296). lia.
Qed.

Lemma int_val z : int_range z → int z = Some z.
Proof. intros. unfold int. by rewrite decide_True. Qed.

Lemma int_inv z r : int z = Some r → r = z ∧ int_range z.
Proof. unfold int. case_decide; [|done]. by intros [= <-]. Qed.

Lemma int_add_val x y a b :
  x = Some a → y = Some b → int_range (a + b) → x +ᵢ y = Some (a + b).
Proof. intros -> -> ?. simpl. by rewrite wrap_id. Qed.

Lemma int_sub_val x y a b :
  x = Some a → y = Some b → int_range (a - b) → x -ᵢ y = Some (a - b).
Proof. intros -> -> ?. simpl. by rewrite wrap_id. Qed.

Lemma int_mul_val x y a b :
  x = Some a → y = Some b → int_range (a * b) → x *ᵢ y = Some (a * b).
Proof. intros -> -> ?. simpl. by rewrite wrap_id. Qed.

Lemma no_trap a b :
  b ≠ 0 → int_range (a ÷ b) → ¬ (b = 0 ∨ (a = int_min ∧ b = -1)).
Proof.
  intros ? Hr [?|[-> ->]]; [done|]. vm_compute in Hr. by destruct Hr as [_ []].
Qed.

Lemma int_div_val x y a b :
  x = Some a → y = Some b → b ≠ 0 → int_range (a ÷ b) → x /ᵢ y = Some (a ÷ b).
Proof.
  intros -> -> ??. unfold int_div. simpl.
  by rewrite decide_False by by apply no_trap.
Qed.

Lemma int_mod_val x y a b :
  x = Some a → y = Some b → b ≠ 0 → int_range (a ÷ b) →
  x %ᵢ y = Some (a `rem` b).
Proof.
  intros -> -> ??. unfold int_mod. simpl.
  by rewrite decide_False by by apply no_trap.
Qed.

Lemma int_mul_inv x y r :
  x *ᵢ y = Some r → ∃ a b, x = Some a ∧ y = Some b ∧ r = wrap (a * b).
Proof.
  destruct x as [a|], y as [b|]; try done. simpl. intros [= <-]. by exists a, b.
Qed.

(** Evaluates a goal [e = Some v] for an [int] expression [e], leaving
    the range conditions. *)
Ltac int_eval :=
  lazymatch goal with
  | |- int_add _ _ = Some _ => eapply int_add_val; [int_eval|int_eval|]
  | |- int_sub _ _ = Some _ => eapply int_sub_val; [int_eval|int_eval|]
  | |- int_mul _ _ = Some _ => eapply int_mul_val; [int_eval|int_eval|]
  | |- int_div _ _ = Some _ => eapply int_div_val; [int_eval|int_eval| |]
  | |- int_mod _ _ = Some _ => eapply int_mod_val; [int_eval|int_eval| |]
  | |- int _ = Some _ => apply int_val
  | |- Some _ = Some _ => reflexivity
  end.

Ltac range := unfold int_range, int_min, int_max in *; lia.

Lemma quot_bound (a b : Z) : 0 ≤ a → b ≠ 0 → - a ≤ a ÷ b ≤ a.
Proof.
  intros Ha Hb. destruct (Z_lt_le_dec b 0).
  - replace b with (- - b) by lia. rewrite Z.quot_opp_r by lia.
    rewrite Z.quot_div_nonneg by lia.
    pose proof (Z.div_pos a (- b)). pose proof (Z.div_le_upper_bound a (- b) a).
    assert (a ≤ - b * a) by nia. lia.
  - rewrite Z.quot_div_nonneg by lia.
    pose proof (Z.div_pos a b). pose proof (Z.div_le_upper_bound a b a).
    assert (a ≤ b * a) by nia. lia.
Qed.

Lemma quot_abs_le (a b : Z) : b ≠ 0 → - Z.abs a ≤ a ÷ b ≤ Z.abs a.
Proof.
  intros Hb. destruct (Z_lt_le_dec a 0).
  - replace a with (- - a) at 2 3 by lia. rewrite Z.quot_opp_l by done.
    pose proof (quot_bound (- a) b ltac:(lia) Hb). lia.
  - pose proof (quot_bound a b ltac:(lia) Hb). lia.
Qed.

(** The decode of a composite index neither wraps nor traps. *)
Lemma eval_decode (c kh kw : Z) :
  0 ≤ c → int_range c → int_range kh → int_range kw → kh ≠ 0 → kw ≠ 0 →
  int c %ᵢ int kw = Some (c `rem` kw)
  ∧ (int c /ᵢ int kw) %ᵢ int kh = Some ((c ÷ kw) `rem` kh)
  ∧ int c /ᵢ int kh /ᵢ int kw = Some (c ÷ kh ÷ kw).
Proof.
  intros Hc Hrc Hrh Hrw Hh Hw.
  pose proof (quot_abs_le c kw Hw). pose proof (quot_abs_le c kh Hh).
  pose proof (quot_abs_le (c ÷ kw) kh Hh). pose proof (quot_abs_le (c ÷ kh) kw Hw).
  split_and!; int_eval; try done; range.
Qed.

(** When the source computes a positive [channels_col], both kernel
    sizes are non-zero [int]s, whether or not the product wrapped. *)
Lemma int_channels_col_inv g cc :
  int_channels_col g = Some cc →
  int_range cc ∧ int_range (kernel_h g) ∧ int_range (kernel_w g)
  ∧ (0 < cc → kernel_h g ≠ 0 ∧ kernel_w g ≠ 0).
Proof.
  unfold int_channels_col.
  intros (ck & kw & Hck & [-> ?]%int_inv & ->)%int_mul_inv.
  apply int_mul_inv in Hck as (c & kh & [-> _]%int_inv & [-> ?]%int_inv & ->).
  split_and!; [apply wrap_range|done..|].
  intros Hpos. split; intros Hz; rewrite Hz in Hpos.
  - by rewrite Z.mul_0_r in Hpos.
  - by rewrite Z.mul_0_r in Hpos.
Qed.

Lemma out_size_bounds (size pad kernel stride : Z) :
  1 ≤ size → 1 ≤ kernel → 1 ≤ stride →
  size + 2 * Z.abs pad + kernel ≤ int_max →
  - (size + 2 * Z.abs pad + kernel) ≤ (size + 2 * pad - kernel) ÷ stride
    ≤ Z.max 0 (size + 2 * pad - kernel).
Proof.
  intros ??? Hfit. pose proof (quot_abs_le (size + 2 * pad - kernel) stride).
  destruct (Z_lt_le_dec (size + 2 * pad - kernel) 0).
  - pose proof (Z.quot_pos (- (size + 2 * pad - kernel)) stride).
    rewrite Z.quot_opp_l in * by lia. lia.
  - lia.
Qed.

(** On positive sizes that fit, the source computes the derived sizes. *)
Lemma fits_header g :
  positive_sizes g → fits_int g →
  int_height_col g = Some (height_col g)
  ∧ int_width_col g = Some (width_col g)
  ∧ int_channels_col g = Some (channels_col g)
  ∧ int_image_size g = Some (height g * width g * channels g).
Proof.
  intros (?&?&?&?&?&?&?) (Hfh&Hfw&?&?&Hcc&His&_).
  pose proof (out_size_bounds (height g) (pad_h g) (kernel_h g) (stride_h g)).
  pose proof (out_size_bounds (width g) (pad_w g) (kernel_w g) (stride_w g)).
  unfold channels_col, image_size in *.
  assert (1 ≤ channels g * kernel_h g ≤ channels g * kernel_h g * kernel_w g) by nia.
  assert (1 ≤ height g * width g ≤ channels g * height g * width g) by nia.
  assert (channels g ≤ channels g * kernel_h g) by nia.
  unfold int_height_col, int_width_col, int_channels_col, int_image_size,
    height_col, width_col.
  split_and!; int_eval; range.
Qed.

Lemma mul_stride_bound (num stride h : Z) :
  1 ≤ stride → 0 ≤ h < num ÷ stride + 1 → 0 ≤ h ≤ h * stride ≤ Z.max 0 num.
Proof.
  intros Hs Hh. destruct (decide (h = 0)) as [->|Hne]; [lia|].
  assert (1 ≤ num ÷ stride) as Hq by lia.
  assert (0 ≤ num).
  { destruct (Z_lt_le_dec num 0); [|done].
    pose proof (Z.quot_pos (- num) stride). rewrite Z.quot_opp_l in * by lia. lia. }
  rewrite Z.quot_div_nonneg in * by lia.
  pose proof (Z.mul_div_le num stride). nia.
Qed.

(** The coordinates and the two offsets of an index triple do not wrap
    on sizes that fit. *)
Lemma eval_row g h c :
  positive_sizes g → fits_int g → 0 ≤ h < height_col g → 0 ≤ c →
  int h *ᵢ int (stride_h g) -ᵢ int (pad_h g)
    +ᵢ int ((c ÷ kernel_w g) `rem` kernel_h g)
  = Some (h * stride_h g - pad_h g + (c ÷ kernel_w g) `rem` kernel_h g).
Proof.
  intros (?&?&?&?&?&?&?) (Hfh&Hfw&?&?&_) Hh Hc.
  pose proof (mul_stride_bound _ (stride_h g) h ltac:(done) Hh).
  pose proof (dec_h_range g c ltac:(done)) as Hoff.
  rewrite <-code_dec_h in Hoff by done.
  int_eval; range.
Qed.

Lemma eval_col g w c :
  positive_sizes g → fits_int g → 0 ≤ w < width_col g → 0 ≤ c →
  int w *ᵢ int (stride_w g) -ᵢ int (pad_w g) +ᵢ int (c `rem` kernel_w g)
  = Some (w * stride_w g - pad_w g + c `rem` kernel_w g).
Proof.
  intros (?&?&?&?&?&?&?) (Hfh&Hfw&?&?&_) Hw Hc.
  pose proof (mul_stride_bound _ (stride_w g) w ltac:(done) Hw).
  pose proof (dec_w_range g c ltac:(done)) as Hoff.
  rewrite <-code_dec_w in Hoff by done.
  int_eval; range.
Qed.

Lemma eval_slot g h w c :
  positive_sizes g → fits_int g →
  0 ≤ h < height_col g → 0 ≤ w < width_col g → 0 ≤ c < channels_col g →
  int (channels_col g) *ᵢ int (width_col g) *ᵢ int h
    +ᵢ int (channels_col g) *ᵢ int w +ᵢ int c
  = Some (slot g h w c).
Proof.
  intros Hpos (_&_&_&_&_&_&Hps) Hh Hw Hc.
  specialize (Hps ltac:(lia) ltac:(lia)).
  pose proof (slot_range g h w c Hh Hw Hc) as Hslot. unfold slot, patch_size in *.
  set (cc := channels_col g) in *. set (wc := width_col g) in *.
  set (hc := height_col g) in *.
  assert (1 ≤ cc * wc ∧ cc ≤ cc * wc ∧ wc ≤ cc * wc) by nia.
  assert (cc * wc ≤ hc * wc * cc) by nia.
  assert (0 ≤ cc * wc * h ∧ h ≤ cc * wc * h) by nia.
  assert (0 ≤ cc * w ∧ w ≤ cc * w) by nia.
  int_eval; range.
Qed.

Lemma eval_target g c hp wp :
  positive_sizes g → fits_int g → 0 ≤ c < channels_col g →
  0 ≤ hp < height g → 0 ≤ wp < width g →
  (int (c ÷ kernel_h g ÷ kernel_w g) *ᵢ int (height g) +ᵢ int hp)
    *ᵢ int (width g) +ᵢ int wp
  = Some ((c ÷ kernel_h g ÷ kernel_w g * height g + hp) * width g + wp).
Proof.
  intros Hpos (?&?&_&_&?&His&_) Hc Hhp Hwp. pose proof Hpos as (?&?&?&?&?&?&?).
  pose proof (dec_c_range g c ltac:(done) ltac:(done) Hc) as Hci.
  assert (channels g ≤ channels_col g).
  { unfold channels_col. rewrite <-Z.mul_assoc.
    assert (1 ≤ kernel_h g * kernel_w g) by nia. nia. }
  rewrite <-code_dec_c in Hci by lia.
  pose proof (im_offset_range g _ hp wp Hci Hhp Hwp) as Hoff.
  unfold im_offset in Hoff.
  set (ci := c ÷ kernel_h g ÷ kernel_w g) in *.
  assert (0 ≤ ci * height g) by nia.
  assert (ci * height g + hp ≤ (ci * height g + hp) * width g) by nia.
  int_eval; range.
Qed.

(** ** The loop nests as runs over the index space *)

Lemma foldM_fmap {A B S} (h : A → B) (f : B → S → option S) l s :
  foldM f (h <$> l) s = foldM (λ x, f (h x)) l s.
Proof.
  revert s. induction l as [|x l IH]; intros s; simpl; [done|].
  destruct (f (h x) s); simpl; [apply IH|done].
Qed.

Lemma foldM_skip {A S} (f : A → S → option S) l s :
  (∀ x s, x ∈ l → f x s = Some s) → foldM f l s = Some s.
Proof.
  revert s. induction l as [|x l IH]; intros s Hf; simpl; [done|].
  rewrite Hf by left. simpl. apply IH. intros. apply Hf. by right.
Qed.

Lemma bind_skip {A} (m : option A) (f : A → option A) :
  (∀ x, f x = Some x) → m ≫= f = m.
Proof. intros Hf. destruct m; [apply Hf|done]. Qed.

Section Runs.
Context `{Scalar Dtype}.
Implicit Types (g : geometry) (b : outbuf Dtype) (t : Z * Z * Z).

(** With an empty index space the loop nest of [im2col_cpu] stores
    nothing. *)
Lemma Unfold_skip g image b hc wc cc :
  int_height_col g = Some hc → int_width_col g = Some wc →
  int_channels_col g = Some cc →
  hc ≤ 0 ∨ wc ≤ 0 ∨ cc ≤ 0 →
  Unfold g image b = Some b.
Proof.
  intros Hh Hw Hc Hdeg. unfold Unfold, im2col_cpu.
  fold (int_height_col g) (int_width_col g) (int_channels_col g).
  rewrite Hh, Hw, Hc. cbn [mbind option_bind].
  apply int_channels_col_inv in Hc as (Hrc & Hrh & Hrw & Hk).
  apply foldM_skip. intros c s Hc%elem_of_seqZ.
  destruct Hk as [??]; [lia|].
  destruct (eval_decode c (kernel_h g) (kernel_w g)) as (-> & -> & ->);
    [lia|range|done..|]. cbn [mbind option_bind]. unfold for_range.
  destruct Hdeg as [?|[?|?]]; [| |lia].
  - by rewrite (seqZ_nil 0 hc).
  - apply foldM_skip. intros h s' _. by rewrite (seqZ_nil 0 wc).
Qed.

(** On sizes that fit, the loop nest of [im2col_cpu] is one pass over the
    index space, in exact integers. *)
Lemma Unfold_loops g image b :
  positive_sizes g → fits_int g →
  Unfold g image b = foldM (im2col_body g image) (triples g) b.
Proof.
  intros Hpos Hfit. destruct (fits_header g Hpos Hfit) as (Hh & Hw & Hc & _).
  destruct (decide (1 ≤ height_col g ∧ 1 ≤ width_col g)) as [[Hhc Hwc]|Hdeg].
  2: { rewrite (Unfold_skip g image b _ _ _ Hh Hw Hc) by lia.
       by rewrite triples_nil by lia. }
  unfold Unfold, im2col_cpu.
  fold (int_height_col g) (int_width_col g) (int_channels_col g).
  rewrite Hh, Hw, Hc. clear Hh Hw Hc. cbn [mbind option_bind].
  trans (foldM (λ t, im2col_body g image (t.1.1, t.1.2, t.2)) (triples g) b);
    [|apply foldM_ext_in; by intros [[??]?]].
  unfold triples.
  rewrite <-(foldM_nest3 (λ c h w, im2col_body g image (c, h, w))).
  unfold for_range. apply foldM_ext_in. intros c s Hc'%elem_of_seqZ.
  pose proof Hpos as (?&?&?&?&?&?&?). pose proof Hfit as (?&?&_&_&?&_).
  destruct (eval_decode c (kernel_h g) (kernel_w g)) as (-> & -> & ->);
    [lia|range|range|range|lia|lia|]. cbn [mbind option_bind].
  apply foldM_ext_in. intros h s' Hh'%elem_of_seqZ.
  apply foldM_ext_in. intros w s'' Hw'%elem_of_seqZ.
  rewrite (eval_row g h c Hpos Hfit) by lia.
  rewrite (eval_col g w c Hpos Hfit) by lia. cbn [mbind option_bind].
  rewrite (eval_slot g h w c Hpos Hfit) by lia. unfold im2col_body.
  destruct (_ && _) eqn:Hin; cbn [mbind option_bind]; [|reflexivity].
  rewrite !andb_true_iff in Hin.
  rewrite (eval_target g c
             (h * stride_h g - pad_h g + (c ÷ kernel_w g) `rem` kernel_h g)
             (w * stride_w g - pad_w g + c `rem` kernel_w g) Hpos Hfit) by lia.
  reflexivity.
Qed.

(** With an empty index space [col2im_cpu] only zero-fills. *)
Lemma Fold_skip g patch b hc wc cc n :
  int_image_size g = Some n →
  int_height_col g = Some hc → int_width_col g = Some wc →
  int_channels_col g = Some cc →
  hc ≤ 0 ∨ wc ≤ 0 ∨ cc ≤ 0 →
  Fold g patch b = run_stores (zero_stores n) b.
Proof.
  intros Hn Hh Hw Hc Hdeg. unfold Fold, col2im_cpu.
  fold (int_image_size g) (int_height_col g) (int_width_col g)
    (int_channels_col g).
  rewrite Hn, Hh, Hw, Hc. cbn [mbind option_bind].
  unfold run_stores, zero_stores. rewrite foldM_fmap.
  etrans; [apply bind_skip|reflexivity]. intros b0.
  apply int_channels_col_inv in Hc as (Hrc & Hrh & Hrw & Hk).
  apply foldM_skip. intros c s Hc%elem_of_seqZ.
  destruct Hk as [??]; [lia|].
  destruct (eval_decode c (kernel_h g) (kernel_w g)) as (-> & -> & ->);
    [lia|range|done..|]. cbn [mbind option_bind]. unfold for_range.
  destruct Hdeg as [?|[?|?]]; [| |lia].
  - by rewrite (seqZ_nil 0 hc).
  - apply foldM_skip. intros h s' _. by rewrite (seqZ_nil 0 wc).
Qed.

(** On sizes that fit, [col2im_cpu] is the zero-filling loop followed by
    one pass over the index space, in exact integers. *)
Lemma Fold_loops g patch b :
  positive_sizes g → fits_int g →
  Fold g patch b =
    run_stores (zero_stores (height g * width g * channels g)) b
    ≫= foldM (col2im_body g patch) (triples g).
Proof.
  intros Hpos Hfit. destruct (fits_header g Hpos Hfit) as (Hh & Hw & Hc & Hn).
  destruct (decide (1 ≤ height_col g ∧ 1 ≤ width_col g)) as [[Hhc Hwc]|Hdeg].
  2: { rewrite (Fold_skip g patch b _ _ _ _ Hn Hh Hw Hc) by lia.
       rewrite triples_nil by lia. symmetry. by apply bind_skip. }
  unfold Fold, col2im_cpu.
  fold (int_image_size g) (int_height_col g) (int_width_col g)
    (int_channels_col g).
  rewrite Hn, Hh, Hw, Hc. clear Hn Hh Hw Hc. cbn [mbind option_bind].
  unfold run_stores, zero_stores. rewrite foldM_fmap.
  apply option_bind_ext; [intros b0|reflexivity].
  trans (foldM (λ t, col2im_body g patch (t.1.1, t.1.2, t.2)) (triples g) b0);
    [|apply foldM_ext_in; by intros [[??]?]].
  unfold triples.
  rewrite <-(foldM_nest3 (λ c h w, col2im_body g patch (c, h, w))).
  unfold for_range. apply foldM_ext_in. intros c s Hc'%elem_of_seqZ.
  pose proof Hpos as (?&?&?&?&?&?&?). pose proof Hfit as (?&?&_&_&?&_).
  destruct (eval_decode c (kernel_h g) (kernel_w g)) as (-> & -> & ->);
    [lia|range|range|range|lia|lia|]. cbn [mbind option_bind].
  apply foldM_ext_in. intros h s' Hh'%elem_of_seqZ.
  apply foldM_ext_in. intros w s'' Hw'%elem_of_seqZ.
  rewrite (eval_row g h c Hpos Hfit) by lia.
  rewrite (eval_col g w c Hpos Hfit) by lia. cbn [mbind option_bind].
  unfold col2im_body.
  destruct (_ && _) eqn:Hin; cbn [mbind option_bind]; [|reflexivity].
  rewrite !andb_true_iff in Hin.
  rewrite (eval_target g c
             (h * stride_h g - pad_h g + (c ÷ kernel_w g) `rem` kernel_h g)
             (w * stride_w g - pad_w g + c `rem` kernel_w g) Hpos Hfit) by lia.
  cbn [mbind option_bind].
  rewrite (eval_slot g h w c Hpos Hfit) by lia. reflexivity.
Qed.
End Runs.


(** ** What the runs store *)

Section Stores.
Context `{Scalar Dtype}.
Implicit Types (g : geometry) (b : outbuf Dtype) (t : Z * Z * Z).

Lemma load_value_at (l : list Dtype) i :
  0 ≤ i < Z.of_nat (length l) → load l i = Some (value_at l i).
Proof.
  intros Hi. unfold value_at.
  by destruct (proj2 (load_Some_iff l i) Hi) as [v ->].
Qed.

Lemma target_range g t :
  positive_sizes g → t ∈ triples g → inside_at g t = true →
  0 ≤ target g t < image_size g.
Proof.
  destruct t as [[c h] w]. intros (?&?&?&?&?&?&?) Ht Hin.
  apply elem_of_triples in Ht. apply inside_spec in Hin.
  apply im_offset_range; [|lia..]. apply dec_c_range; lia.
Qed.

Lemma slot_of_range g t : t ∈ triples g → 0 ≤ slot_of g t < patch_size g.
Proof.
  destruct t as [[c h] w]. intros Ht. apply elem_of_triples in Ht.
  apply slot_range; lia.
Qed.

Lemma slot_of_inj g t t' :
  t ∈ triples g → t' ∈ triples g → slot_of g t = slot_of g t' → t = t'.
Proof.
  destruct t as [[c h] w], t' as [[c' h'] w']. intros Ht Ht' Heq.
  apply elem_of_triples in Ht, Ht'.
  apply slot_inj in Heq as (-> & -> & ->); [done|lia..].
Qed.

Lemma code_inside g c h w :
  0 ≤ c → 1 ≤ kernel_h g → 1 ≤ kernel_w g →
  (h * stride_h g - pad_h g + (c ÷ kernel_w g) `rem` kernel_h g >=? 0)
  && (h * stride_h g - pad_h g + (c ÷ kernel_w g) `rem` kernel_h g <? height g)
  && (w * stride_w g - pad_w g + c `rem` kernel_w g >=? 0)
  && (w * stride_w g - pad_w g + c `rem` kernel_w g <? width g)
  = inside g h w c.
Proof. intros. by rewrite !Z.geb_leb, code_dec_h, code_dec_w by done. Qed.

Lemma im2col_body_store g image t b :
  positive_sizes g → Z.of_nat (length image) = image_size g → t ∈ triples g →
  im2col_body g image t b = store b (slot_of g t) (entry g image t).
Proof.
  intros Hpos Hlen Ht. pose proof (target_range g t Hpos Ht) as Hrange.
  destruct Hpos as (?&?&?&?&?&?&?). destruct t as [[c h] w].
  pose proof Ht as Hin. apply elem_of_triples in Hin.
  unfold im2col_body, entry, target, inside_at in *.
  rewrite code_inside, code_dec_h, code_dec_w, code_dec_c by lia.
  fold (row_of g h c) (col_of g w c).
  fold (im_offset g (dec_c g c) (row_of g h c) (col_of g w c)).
  destruct (inside g h w c); [|done].
  rewrite load_value_at; [done|]. rewrite Hlen. by apply Hrange.
Qed.

Lemma col2im_body_add g patch t b :
  positive_sizes g → Z.of_nat (length patch) = patch_size g → t ∈ triples g →
  col2im_body g patch t b =
    if inside_at g t
    then old ← load (cells b) (target g t);
         store b (target g t) (add old (value_at patch (slot_of g t)))
    else Some b.
Proof.
  intros Hpos Hlen Ht. pose proof (slot_of_range g t Ht) as Hrange.
  destruct Hpos as (?&?&?&?&?&?&?). destruct t as [[c h] w].
  pose proof Ht as Hin. apply elem_of_triples in Hin.
  unfold col2im_body, target, inside_at, slot_of in *.
  rewrite code_inside, code_dec_h, code_dec_w, code_dec_c by lia.
  fold (row_of g h c) (col_of g w c).
  fold (im_offset g (dec_c g c) (row_of g h c) (col_of g w c)).
  destruct (inside g h w c); [|done].
  rewrite (load_value_at patch); [reflexivity|]. by rewrite Hlen.
Qed.

(** On a geometry with positive sizes and an image of the right size,
    every iteration of Unfold is a store of a value known in advance. *)
Lemma Unfold_run g image b :
  positive_sizes g → fits_int g → Z.of_nat (length image) = image_size g →
  Unfold g image b = run_stores (unfold_stores g image) b.
Proof.
  intros Hpos Hfit Hlen. pose proof Hpos as (?&?&?&?&?&?&?).
  rewrite Unfold_loops by done.
  unfold run_stores, unfold_stores. rewrite foldM_fmap.
  apply foldM_ext_in. intros t s Ht. by apply im2col_body_store.
Qed.

(** Likewise every iteration of Fold that lands inside the image is an
    addition of a value known in advance, and the others do nothing. *)
Lemma Fold_run g patch b :
  positive_sizes g → fits_int g → Z.of_nat (length patch) = patch_size g →
  Fold g patch b =
    run_stores (zero_stores (image_size g)) b ≫= run_adds (fold_adds g patch).
Proof.
  intros Hpos Hfit Hlen. pose proof Hpos as (?&?&?&?&?&?&?).
  rewrite Fold_loops by done.
  replace (height g * width g * channels g) with (image_size g)
    by (unfold image_size; lia).
  apply option_bind_ext; [intros b0|done].
  unfold run_adds, fold_adds. rewrite foldM_fmap, <-foldM_filter.
  apply foldM_ext_in. intros t s Ht. by apply col2im_body_add.
Qed.

(** The zero-filling loop overwrites a buffer of exactly [n] cells. *)
Lemma zero_fill n b :
  Z.of_nat (length (cells b)) = n →
  run_stores (zero_stores n) b =
    Some (OutBuf (replicate (length (cells b)) zero)
                 (reverse (zero_stores n) ++ stores b)).
Proof.
  intros Hn.
  destruct (run_stores_spec (zero_stores n) b)
    as ([cs st] & Hrun & Hlen & Hlog & _ & Hnew).
  { apply Forall_fmap, Forall_seqZ. intros i ?. unfold in_range. simpl. lia. }
  simpl in *. rewrite Hrun, Hlog. do 2 f_equal.
  apply load_ext; [by rewrite length_replicate|]. intros j.
  assert (NoDup (zero_stores n).*1) as Hnd.
  { unfold zero_stores. rewrite <-list_fmap_compose.
    simpl. rewrite list_fmap_id. apply NoDup_seqZ. }
  destruct (decide (0 ≤ j < n)) as [Hj|Hj].
  - rewrite (Hnew Hnd (j, zero)).
    + unfold load. rewrite decide_True by lia.
      symmetry. apply lookup_replicate_2. lia.
    + apply list_elem_of_fmap. exists j. split; [done|].
      apply elem_of_seqZ. lia.
  - outside_both.
Qed.
End Stores.

(** ** Lists: filters and sums *)

Section Lists.
Context {A : Type}.

Lemma filter_fmap' {B} (P : B → Prop) `{!∀ x, Decision (P x)} (f : A → B) (l : list A) :
  filter P (f <$> l) = f <$> filter (λ x, P (f x)) l.
Proof.
  induction l as [|x l IH]; [done|]. rewrite fmap_cons.
  destruct (decide (P (f x))).
  - rewrite !filter_cons_True by done. by rewrite fmap_cons, IH.
  - rewrite !filter_cons_False by done. done.
Qed.

Lemma filter_ext_in (P Q : A → Prop)
    `{!∀ x, Decision (P x), !∀ x, Decision (Q x)} (l : list A) :
  (∀ x, x ∈ l → P x ↔ Q x) → filter P l = filter Q l.
Proof.
  induction l as [|x l IH]; intros HPQ; [done|].
  assert (filter P l = filter Q l) as Hl
    by (apply IH; intros; apply HPQ; by right).
  destruct (decide (P x)) as [HP|HP].
  - rewrite !filter_cons_True; [by rewrite Hl|by apply HPQ; [left|]|done].
  - rewrite !filter_cons_False; [done| |done].
    intros HQ. apply HP, HPQ; [left|done].
Qed.

Lemma filter_none (P : A → Prop) `{!∀ x, Decision (P x)} (l : list A) :
  (∀ x, x ∈ l → ¬ P x) → filter P l = [].
Proof.
  intros HP. destruct (filter P l) as [|y k] eqn:Hf; [done|].
  assert (y ∈ filter P l) as Hy by (rewrite Hf; left).
  apply list_elem_of_filter in Hy as [HPy Hy]. by destruct (HP y).
Qed.

(** A duplicate-free list with one element satisfying [P] *)
Lemma filter_unique (P : A → Prop) `{!∀ x, Decision (P x)} (l : list A) x :
  NoDup l → x ∈ l → P x → (∀ y, y ∈ l → P y → y = x) → filter P l = [x].
Proof.
  induction l as [|a l IH]; intros Hnd Hx HP Huniq.
  { by apply elem_of_nil in Hx. }
  apply NoDup_cons in Hnd as [Ha Hnd].
  destruct (decide (P a)) as [HPa|HPa].
  - assert (a = x) as -> by (apply Huniq; [left|done]).
    rewrite filter_cons_True by done. f_equal.
    apply filter_none. intros y Hy HPy.
    assert (y = x) as -> by (apply Huniq; [by right|done]). done.
  - rewrite filter_cons_False by done.
    apply elem_of_cons in Hx as [->|Hx]; [done|].
    apply IH; [done..|]. intros. apply Huniq; [by right|done].
Qed.
End Lists.

Lemma foldl_add_sumZ (x : Z) (l : list Z) : foldl Z.add x l = x + sumZ l.
Proof.
  revert x. induction l as [|a l IH]; intros x; simpl; [lia|].
  rewrite IH. lia.
Qed.

Lemma sumZ_fmap_add {A} (f1 f2 f12 : A → Z) (l : list A) :
  (∀ x, x ∈ l → f12 x = f1 x + f2 x) →
  sumZ (f12 <$> l) = sumZ (f1 <$> l) + sumZ (f2 <$> l).
Proof.
  induction l as [|a l IH]; intros Hf; csimpl; [done|].
  rewrite Hf by left. rewrite IH; [lia|]. intros. apply Hf. by right.
Qed.

Lemma sumZ_fmap_const {A} (f : A → Z) (k : Z) (l : list A) :
  (∀ x, x ∈ l → f x = k) → sumZ (f <$> l) = k * Z.of_nat (length l).
Proof.
  induction l as [|a l IH]; intros Hf; csimpl; [lia|].
  rewrite Hf by left. rewrite IH; [lia|]. intros. apply Hf. by right.
Qed.

(** ** The results of the two transforms *)

Section Results.
Context `{Scalar Dtype}.
Implicit Types (g : geometry) (b : outbuf Dtype) (t : Z * Z * Z).

Lemma NoDup_unfold_slots g image : NoDup (unfold_stores g image).*1.
Proof.
  unfold unfold_stores. rewrite <-list_fmap_compose.
  apply NoDup_fmap_2_strong; [|apply NoDup_triples].
  intros t t' Ht Ht'. apply slot_of_inj; done.
Qed.

Lemma unfold_slots_perm g image :
  1 ≤ width_col g → 1 ≤ channels_col g →
  (unfold_stores g image).*1 ≡ₚ seqZ 0 (patch_size g).
Proof.
  intros Hw Hc.
  apply NoDup_Permutation; [apply NoDup_unfold_slots|apply NoDup_seqZ|].
  intros j. unfold unfold_stores. rewrite <-list_fmap_compose.
  rewrite list_elem_of_fmap, elem_of_seqZ. split.
  - intros (t & -> & Ht). simpl. pose proof (slot_of_range g t Ht). lia.
  - intros Hj. destruct (slot_surj g j) as (h & w & c & ? & ? & ? & <-);
      [lia..|].
    exists (c, h, w). split; [done|]. by apply elem_of_triples.
Qed.

Theorem Unfold_spec g image b :
  positive_sizes g → fits_int g →
  Z.of_nat (length image) = image_size g →
  Z.of_nat (length (cells b)) = patch_size g →
  ∃ b', Unfold g image b = Some b'
    ∧ length (cells b') = length (cells b)
    ∧ stores b' = reverse (unfold_stores g image) ++ stores b
    ∧ ∀ t, t ∈ triples g → load (cells b') (slot_of g t) = Some (entry g image t).
Proof.
  intros Hpos Hfit Him Hb. rewrite Unfold_run by done.
  destruct (run_stores_spec (unfold_stores g image) b)
    as (b' & Hrun & Hlen & Hlog & _ & Hnew).
  { apply Forall_fmap, Forall_forall. intros t Ht.
    unfold in_range. simpl. rewrite Hb. by apply slot_of_range. }
  exists b'. split_and!; try done. intros t Ht.
  apply (Hnew (NoDup_unfold_slots g image) (slot_of g t, entry g image t)).
  apply list_elem_of_fmap. by exists t.
Qed.

(** The result of Unfold does not depend on what the output buffer held. *)
Lemma Unfold_cells_indep g image b1 b2 r1 r2 :
  positive_sizes g → fits_int g → 1 ≤ width_col g →
  Z.of_nat (length image) = image_size g →
  Z.of_nat (length (cells b1)) = patch_size g →
  Z.of_nat (length (cells b2)) = patch_size g →
  Unfold g image b1 = Some r1 → Unfold g image b2 = Some r2 →
  cells r1 = cells r2.
Proof.
  intros Hpos Hfit Hw Him Hb1 Hb2 Hr1 Hr2.
  destruct (Unfold_spec g image b1) as (r1' & Hr1' & Hlen1 & _ & Hval1);
    [done..|].
  destruct (Unfold_spec g image b2) as (r2' & Hr2' & Hlen2 & _ & Hval2);
    [done..|].
  simplify_eq. apply load_ext; [lia|]. intros j.
  destruct (decide (0 ≤ j < patch_size g)) as [Hj|Hj].
  - destruct (slot_surj g j) as (h & w & c & ? & ? & ? & <-); [done..| |].
    { destruct Hpos as (?&?&?&?&?&?&?). unfold channels_col. nia. }
    assert ((c, h, w) ∈ triples g) as Ht by by apply elem_of_triples.
    etrans; [apply (Hval1 _ Ht)|symmetry; apply (Hval2 _ Ht)].
  - outside_both.
Qed.

Lemma fold_adds_in_range g patch :
  positive_sizes g →
  Forall (in_range (Z.to_nat (image_size g))) (fold_adds g patch).
Proof.
  intros Hpos. apply Forall_fmap, Forall_forall. intros t Ht.
  apply list_elem_of_filter in Ht as [Hin Ht]. apply Is_true_true in Hin.
  pose proof (target_range g t Hpos Ht Hin). unfold in_range. simpl. lia.
Qed.

Theorem Fold_spec g patch b :
  positive_sizes g → fits_int g →
  Z.of_nat (length patch) = patch_size g →
  Z.of_nat (length (cells b)) = image_size g →
  ∃ b' later, Fold g patch b = Some b'
    ∧ length (cells b') = length (cells b)
    ∧ stores b' = later ++ reverse (zero_stores (image_size g)) ++ stores b
    ∧ later.*1 = reverse (fold_adds g patch).*1
    ∧ ∀ j, 0 ≤ j < image_size g →
        load (cells b') j = Some (foldl add zero (added_at j (fold_adds g patch))).
Proof.
  intros Hpos Hfit Hp Hb. rewrite Fold_run, zero_fill by done. simpl.
  set (b0 := OutBuf _ _).
  destruct (run_adds_spec (fold_adds g patch) b0)
    as (b' & later & Hrun & Hlen & Hlog & Hlater & Hval).
  { subst b0. simpl. rewrite length_replicate.
    replace (length (cells b)) with (Z.to_nat (image_size g)) by lia.
    by apply fold_adds_in_range. }
  exists b', later. subst b0. simpl in *. rewrite length_replicate in Hlen.
  split_and!; try done. intros j Hj. rewrite Hval.
  unfold load at 1. rewrite decide_True, lookup_replicate_2 by lia. done.
Qed.
End Results.

(** ** Unfold: the value of every slot *)

(** C1. For all sizes and strides at least 1 that fit in [int]
    arithmetic, and at least one output row and column, Unfold returns,
    and for every output position [(h, w)] and
    composite index [c] of the index space the slot
    [channels_col*width_col*h + channels_col*w + c] is stored to with, and
    finally holds, the image value at offset
    [(c_im*height + h_pad)*width + w_pad] when [(h_pad, w_pad)] lies in the
    image, and zero otherwise; the decode uses floor division and modulus
    as the specification words it. *)
Theorem unfold_slot_value `{Scalar Dtype} (g : geometry)
    (image : list Dtype) (out : outbuf Dtype) :
  1 ≤ channels g → 1 ≤ height g → 1 ≤ width g →
  1 ≤ kernel_h g → 1 ≤ kernel_w g → 1 ≤ stride_h g → 1 ≤ stride_w g →
  fits_int g → 1 ≤ height_col g → 1 ≤ width_col g →
  Z.of_nat (length image) = channels g * height g * width g →
  Z.of_nat (length (cells out)) = height_col g * width_col g * channels_col g →
  ∃ out' new, Unfold g image out = Some out' ∧ stores out' = new ++ stores out ∧
    ∀ h w c,
      0 ≤ h < height_col g → 0 ≤ w < width_col g →
      0 ≤ c < channels g * kernel_h g * kernel_w g →
      let channels_col := channels g * kernel_h g * kernel_w g in
      let w_offset := c `mod` kernel_w g in
      let h_offset := (c `div` kernel_w g) `mod` kernel_h g in
      let c_im := c `div` (kernel_h g * kernel_w g) in
      let h_pad := h * stride_h g - pad_h g + h_offset in
      let w_pad := w * stride_w g - pad_w g + w_offset in
      let slot := channels_col * width_col g * h + channels_col * w + c in
      ∃ v, (slot, v) ∈ new
        ∧ load (cells out') slot = Some v
        ∧ if decide (0 ≤ h_pad < height g ∧ 0 ≤ w_pad < width g)
          then load image ((c_im * height g + h_pad) * width g + w_pad) = Some v
          else v = zero.
Proof.
  intros Hc Hh Hw Hkh Hkw Hsh Hsw Hfit Hhc Hwc Him Hout.
  assert (positive_sizes g) as Hpos by (unfold positive_sizes; lia).
  destruct (Unfold_spec g image out Hpos Hfit Him Hout)
    as (out' & Hrun & _ & Hlog & Hval).
  exists out', (reverse (unfold_stores g image)). split_and!; [done..|].
  intros h w c Hh' Hw' Hc'. cbv zeta.
  assert ((c, h, w) ∈ triples g) as Ht by by apply elem_of_triples.
  exists (entry g image (c, h, w)). split_and!.
  - rewrite elem_of_reverse. apply list_elem_of_fmap. by exists (c, h, w).
  - apply (Hval _ Ht).
  - pose proof (target_range g _ Hpos Ht) as Hrange.
    unfold entry, target, inside_at in *.
    pose proof (inside_spec g h w c) as Hin.
    fold (dec_w g c) (dec_h g c) (dec_c g c) (row_of g h c) (col_of g w c).
    fold (im_offset g (dec_c g c) (row_of g h c) (col_of g w c)).
    destruct (inside g h w c).
    + rewrite decide_True by by apply Hin.
      apply load_value_at. unfold image_size in Hrange. rewrite Him.
      by apply Hrange.
    + rewrite decide_False; [done|]. intros Hn. by apply Hin in Hn.
Qed.

Lemma unfold_slot_value_witness :
  ∃ out' new, Unfold g443 image16 (fresh (replicate 36 7)) = Some out'
    ∧ stores out' = new ++ [] ∧
    ∀ h w c, 0 ≤ h < 2 → 0 ≤ w < 2 → 0 ≤ c < 9 →
      ∃ v, (9 * 2 * h + 9 * w + c, v) ∈ new
        ∧ load (cells out') (9 * 2 * h + 9 * w + c) = Some v
        ∧ if decide (0 ≤ h * 1 - 0 + (c `div` 3) `mod` 3 < 4
                     ∧ 0 ≤ w * 1 - 0 + c `mod` 3 < 4)
          then load image16
                 ((c `div` (3 * 3) * 4 + (h * 1 - 0 + (c `div` 3) `mod` 3)) * 4
                  + (w * 1 - 0 + c `mod` 3)) = Some v
          else v = 0.
Proof.
  exact (unfold_slot_value g443 image16 (fresh (replicate 36 7))
           ltac:(simpl; lia) ltac:(simpl; lia) ltac:(simpl; lia)
           ltac:(simpl; lia) ltac:(simpl; lia) ltac:(simpl; lia)
           ltac:(simpl; lia) ltac:(vm_compute; intuition discriminate)
           ltac:(vm_compute; congruence)
           ltac:(vm_compute; congruence) ltac:(reflexivity) ltac:(reflexivity)).
Defined.

(** ** Unfold: every slot stored to once, whatever the buffer held *)

(** C7. Unfold stores to every one of the
    [height_col*width_col*channels_col] slots of its output exactly once
    (the offsets of its stores are a rearrangement of [0, 1, ..., size-1]),
    and neither the stores nor the final contents depend on what the
    output buffer held before: two runs on the same image and geometry
    from different initial contents make the same stores and end with
    identical contents.
    All sizes are positive and fit in [int] arithmetic. *)
Theorem unfold_once_and_state_free `{Scalar Dtype} (g : geometry)
    (image : list Dtype) (out1 out2 : outbuf Dtype) :
  positive_sizes g → fits_int g → 1 ≤ height_col g → 1 ≤ width_col g →
  Z.of_nat (length image) = image_size g →
  Z.of_nat (length (cells out1)) = patch_size g →
  Z.of_nat (length (cells out2)) = patch_size g →
  ∃ r1 r2 new,
    Unfold g image out1 = Some r1 ∧ Unfold g image out2 = Some r2
    ∧ stores r1 = new ++ stores out1 ∧ stores r2 = new ++ stores out2
    ∧ new.*1 ≡ₚ seqZ 0 (height_col g * width_col g * channels_col g)
    ∧ cells r1 = cells r2.
Proof.
  intros Hpos Hfit Hhc Hwc Him Hout1 Hout2.
  destruct (Unfold_spec g image out1) as (r1 & Hr1 & _ & Hlog1 & _); [done..|].
  destruct (Unfold_spec g image out2) as (r2 & Hr2 & _ & Hlog2 & _); [done..|].
  exists r1, r2, (reverse (unfold_stores g image)). split_and!; try done.
  - rewrite fmap_reverse, reverse_Permutation.
    apply unfold_slots_perm; [done|].
    destruct Hpos as (?&?&?&?&?&?&?). unfold channels_col. nia.
  - by apply (Unfold_cells_indep g image out1 out2).
Qed.

Lemma unfold_once_and_state_free_witness :
  ∃ r1 r2 new,
    Unfold g443 image16 (fresh (replicate 36 7)) = Some r1
    ∧ Unfold g443 image16 (fresh (replicate 36 (-1))) = Some r2
    ∧ stores r1 = new ++ [] ∧ stores r2 = new ++ []
    ∧ new.*1 ≡ₚ seqZ 0 36
    ∧ cells r1 = cells r2.
Proof.
  exact (unfold_once_and_state_free g443 image16
           (fresh (replicate 36 7)) (fresh (replicate 36 (-1)))
           ltac:(unfold positive_sizes; simpl; lia)
           ltac:(vm_compute; intuition discriminate)
           ltac:(vm_compute; congruence) ltac:(vm_compute; congruence)
           ltac:(reflexivity) ltac:(reflexivity) ltac:(reflexivity)).
Defined.

(** ** Unfold: zero padding *)

(** C6. With some padding, Unfold of the all-ones image stores to, and
    leaves in, every slot of the index space zero when the decoded
    [(h_pad, w_pad)] falls outside the image and one when it falls
    inside.
    All sizes are positive and fit in [int] arithmetic. *)
Theorem unfold_ones_padding (g : geometry) (out : outbuf Z) :
  positive_sizes g → fits_int g → 0 < pad_h g ∨ 0 < pad_w g →
  1 ≤ height_col g → 1 ≤ width_col g →
  Z.of_nat (length (cells out)) = patch_size g →
  ∃ out' new,
    Unfold g (replicate (Z.to_nat (image_size g)) 1) out = Some out'
    ∧ stores out' = new ++ stores out ∧
    ∀ h w c,
      0 ≤ h < height_col g → 0 ≤ w < width_col g → 0 ≤ c < channels_col g →
      let v := if decide (0 ≤ row_of g h c < height g ∧ 0 ≤ col_of g w c < width g)
               then 1 else 0 in
      (slot g h w c, v) ∈ new ∧ load (cells out') (slot g h w c) = Some v.
Proof.
  intros Hpos Hfit _ Hhc Hwc Hout.
  assert (0 ≤ image_size g)
    by (destruct Hpos as (?&?&?&?&?&?&?); unfold image_size; nia).
  destruct (Unfold_spec g (replicate (Z.to_nat (image_size g)) 1) out)
    as (out' & Hrun & _ & Hlog & Hval); [done|done|rewrite length_replicate; lia|done|].
  exists out', (reverse (unfold_stores g (replicate (Z.to_nat (image_size g)) 1))).
  split_and!; [done..|]. intros h w c Hh Hw Hc.
  assert ((c, h, w) ∈ triples g) as Ht by by apply elem_of_triples.
  assert (entry g (replicate (Z.to_nat (image_size g)) 1) (c, h, w)
          = if decide (0 ≤ row_of g h c < height g ∧ 0 ≤ col_of g w c < width g)
            then 1 else 0) as <-; [|split; [|apply (Hval _ Ht)];
    rewrite elem_of_reverse; apply list_elem_of_fmap; by exists (c, h, w)].
  pose proof (target_range g _ Hpos Ht) as Hrange.
  pose proof (inside_spec g h w c) as Hin.
  unfold entry, inside_at in *. destruct (inside g h w c).
  - rewrite decide_True by by apply Hin.
    unfold value_at, load. rewrite decide_True by (apply Hrange; done).
    rewrite lookup_replicate_2; [done|]. specialize (Hrange eq_refl). lia.
  - rewrite decide_False; [done|]. intros Hn. by apply Hin in Hn.
Qed.

Lemma unfold_ones_padding_witness :
  ∃ out' new,
    Unfold g443_pad1 (replicate 16 1) (fresh (replicate 144 7)) = Some out'
    ∧ stores out' = new ++ [] ∧
    ∀ h w c, 0 ≤ h < 4 → 0 ≤ w < 4 → 0 ≤ c < 9 →
      let v := if decide (0 ≤ row_of g443_pad1 h c < 4 ∧ 0 ≤ col_of g443_pad1 w c < 4)
               then 1 else 0 in
      (slot g443_pad1 h w c, v) ∈ new
      ∧ load (cells out') (slot g443_pad1 h w c) = Some v.
Proof.
  exact (unfold_ones_padding g443_pad1 (fresh (replicate 144 7))
           ltac:(unfold positive_sizes; simpl; lia)
           ltac:(vm_compute; intuition discriminate) ltac:(left; simpl; lia)
           ltac:(vm_compute; congruence) ltac:(vm_compute; congruence)
           ltac:(reflexivity)).
Defined.

(** ** Degenerate geometries *)

(** With a positive divisor, truncating division yields at most -1
    exactly when the dividend is at most the negated divisor. *)
Lemma quot_le_m1 (a b : Z) : 1 ≤ b → a ÷ b + 1 ≤ 0 ↔ a ≤ - b.
Proof.
  intros Hb. pose proof (Z.quot_rem' a b) as Hqr.
  destruct (Z_le_gt_dec 0 a) as [Ha|Ha].
  - pose proof (Z.quot_pos a b Ha). lia.
  - pose proof (Z.rem_bound_pos_neg a b) as Hr.
    split; intros Hq.
    + assert (b * (a ÷ b) ≤ b * (-1)) by (apply Z.mul_le_mono_nonneg_l; lia). lia.
    + destruct (Z_le_gt_dec 0 (a ÷ b)); [|lia].
      assert (0 ≤ b * (a ÷ b)) by (apply Z.mul_nonneg_nonneg; lia). lia.
Qed.

(** So the derived height is non-positive exactly when the kernel exceeds
    the padded image by a full stride; likewise for the width. *)
Lemma height_col_nonpos (g : geometry) :
  1 ≤ stride_h g →
  height_col g ≤ 0 ↔ height g + 2 * pad_h g - kernel_h g ≤ - stride_h g.
Proof. intros. by apply quot_le_m1. Qed.

Lemma width_col_nonpos (g : geometry) :
  1 ≤ stride_w g →
  width_col g ≤ 0 ↔ width g + 2 * pad_w g - kernel_w g ≤ - stride_w g.
Proof. intros. by apply quot_le_m1. Qed.

(** C10. When the [height_col] or the [width_col] that the source
    computes (in [int], with truncating division; the divisions
    returning) is not positive, Unfold stores nothing and returns the
    output buffer as it was, while Fold still stores zero to each of the
    [height*width*channels] image cells (this number being computed
    without wrapping), and to nothing else, so that the image ends all
    zero. *)
Theorem degenerate_geometry `{Scalar Dtype} (g : geometry)
    (image patch : list Dtype) (out im : outbuf Dtype) (hc wc cc : Z) :
  int_height_col g = Some hc → int_width_col g = Some wc →
  int_channels_col g = Some cc →
  hc ≤ 0 ∨ wc ≤ 0 →
  int_image_size g = Some (height g * width g * channels g) →
  Z.of_nat (length (cells im)) = height g * width g * channels g →
  Unfold g image out = Some out
  ∧ Fold g patch im =
      Some (OutBuf (replicate (length (cells im)) zero)
              (reverse (zero_stores (height g * width g * channels g)) ++ stores im)).
Proof.
  intros Hh Hw Hc Hdeg Hn Him. split.
  - apply (Unfold_skip g image out hc wc cc Hh Hw Hc). tauto.
  - rewrite (Fold_skip g patch im hc wc cc _ Hn Hh Hw Hc) by tauto.
    apply zero_fill, Him.
Qed.

Lemma degenerate_geometry_witness :
  Unfold g_degenerate [1; 2; 3; 4] (fresh [7; 7; 7]) = Some (fresh [7; 7; 7])
  ∧ Fold g_degenerate [5; 5; 5] (fresh [7; 7; 7; 7]) =
      Some (OutBuf [0; 0; 0; 0] [(3, 0); (2, 0); (1, 0); (0, 0)]).
Proof.
  exact (degenerate_geometry g_degenerate [1; 2; 3; 4] [5; 5; 5]
           (fresh [7; 7; 7]) (fresh [7; 7; 7; 7]) (-2) (-2) 25
           ltac:(reflexivity) ltac:(reflexivity) ltac:(reflexivity)
           ltac:(left; lia) ltac:(reflexivity) ltac:(reflexivity)).
Defined.

(** ** Fold: what lands on an image location *)

Lemma lands_spec g ci r q c h w :
  lands g ci r q (c, h, w) = true ↔
  dec_c g c = ci ∧ row_of g h c = r ∧ col_of g w c = q.
Proof. unfold lands. rewrite !andb_true_iff. lia. Qed.

Section FoldValue.
Context `{Scalar Dtype}.

Lemma added_at_covering g (patch : list Dtype) ci r q :
  0 ≤ r < height g → 0 ≤ q < width g →
  added_at (im_offset g ci r q) (fold_adds g patch)
  = (λ t, value_at patch (slot_of g t)) <$> covering g ci r q.
Proof.
  intros Hr Hq. unfold added_at, fold_adds, covering.
  rewrite filter_fmap', <-list_fmap_compose, list_filter_filter.
  f_equal. apply filter_ext_in. intros [[c h] w] _.
  unfold inside_at, target. cbn [fst].
  rewrite !Is_true_true, lands_spec, inside_spec. split.
  - intros [Heq [??]]. apply im_offset_inj in Heq; [done|lia..].
  - intros (<- & <- & <-). done.
Qed.

Lemma Fold_value g (patch : list Dtype) (b : outbuf Dtype) :
  positive_sizes g → fits_int g →
  Z.of_nat (length patch) = patch_size g →
  Z.of_nat (length (cells b)) = image_size g →
  ∃ b' later, Fold g patch b = Some b'
    ∧ length (cells b') = length (cells b)
    ∧ stores b' = later ++ reverse (zero_stores (image_size g)) ++ stores b
    ∧ later.*1 = reverse (target g <$> filter (inside_at g) (triples g))
    ∧ ∀ ci r q, 0 ≤ ci < channels g → 0 ≤ r < height g → 0 ≤ q < width g →
        load (cells b') (im_offset g ci r q)
        = Some (foldl add zero
                  ((λ t, value_at patch (slot_of g t)) <$> covering g ci r q)).
Proof.
  intros Hpos Hfit Hp Hb.
  destruct (Fold_spec g patch b Hpos Hfit Hp Hb)
    as (b' & later & Hrun & Hlen & Hlog & Hlater & Hval).
  exists b', later. split_and!; try done.
  - rewrite Hlater. unfold fold_adds. by rewrite <-list_fmap_compose.
  - intros ci r q Hci Hr Hq.
    rewrite Hval by by apply im_offset_range.
    by rewrite added_at_covering.
Qed.
End FoldValue.

(** C2. On positive sizes that fit in [int] arithmetic, for any scalar
    type, Fold returns; its first [channels*height*width] stores put zero
    into every cell of the image buffer, in order; every later store goes
    to the target of an index triple that lands inside the image (the
    others contribute nothing); and the final value at each image location
    [(c_im, h_pad, w_pad)] is the sum of the patch values at the slots of
    the index triples that decode exactly to this location: these values
    added one by one to zero, in the order the loops visit the triples. *)
Theorem fold_sums_landing_values `{Scalar Dtype} (g : geometry)
    (patch : list Dtype) (im : outbuf Dtype) :
  positive_sizes g → fits_int g → 1 ≤ height_col g → 1 ≤ width_col g →
  Z.of_nat (length patch) = patch_size g →
  Z.of_nat (length (cells im)) = channels g * height g * width g →
  ∃ out later,
    Fold g patch im = Some out
    ∧ stores out
      = later ++ reverse (zero_stores (channels g * height g * width g)) ++ stores im
    ∧ later.*1 = reverse (target g <$> filter (inside_at g) (triples g))
    ∧ ∀ c_im h_pad w_pad,
        0 ≤ c_im < channels g → 0 ≤ h_pad < height g → 0 ≤ w_pad < width g →
        load (cells out) ((c_im * height g + h_pad) * width g + w_pad)
        = Some (foldl add zero
                  ((λ '(c, h, w), value_at patch
                      (channels_col g * width_col g * h + channels_col g * w + c))
                   <$> covering g c_im h_pad w_pad)).
Proof.
  intros Hpos Hfit _ _ Hp Hb.
  destruct (Fold_value g patch im Hpos Hfit Hp Hb)
    as (out & later & Hrun & _ & Hlog & Hlater & Hval).
  exists out, later. split_and!; try done.
  intros ci r q Hci Hr Hq.
  etrans; [apply (Hval ci r q Hci Hr Hq)|]. do 2 f_equal.
  apply list_fmap_ext. by intros _ [[c h] w] _.
Qed.

Lemma fold_sums_landing_values_witness :
  ∃ out later,
    Fold g443 (seqZ 1 36) (fresh (replicate 16 7)) = Some out
    ∧ stores out = later ++ reverse (zero_stores (1 * 4 * 4)) ++ []
    ∧ later.*1 = reverse (target g443 <$> filter (inside_at g443) (triples g443))
    ∧ ∀ c_im h_pad w_pad, 0 ≤ c_im < 1 → 0 ≤ h_pad < 4 → 0 ≤ w_pad < 4 →
        load (cells out) ((c_im * 4 + h_pad) * 4 + w_pad)
        = Some (foldl Z.add 0
                  ((λ '(c, h, w), value_at (seqZ 1 36)
                      (channels_col g443 * width_col g443 * h
                       + channels_col g443 * w + c))
                   <$> covering g443 c_im h_pad w_pad)).
Proof.
  exact (fold_sums_landing_values g443 (seqZ 1 36) (fresh (replicate 16 7))
           ltac:(unfold positive_sizes; simpl; lia)
           ltac:(vm_compute; intuition discriminate)
           ltac:(vm_compute; congruence) ltac:(vm_compute; congruence)
           ltac:(reflexivity) ltac:(reflexivity)).
Defined.

(** ** Fold: overlap counts *)

(** C4. With overlapping patches (a stride below the kernel size), Fold of
    the all-ones patch matrix leaves at every image location the number
    of index triples that decode exactly to it: its coverage count, which
    is in general not 1.
    All sizes are positive and fit in [int] arithmetic. *)
Theorem fold_ones_counts_coverage (g : geometry) (im : outbuf Z) :
  positive_sizes g → fits_int g → stride_h g < kernel_h g ∨ stride_w g < kernel_w g →
  1 ≤ height_col g → 1 ≤ width_col g →
  Z.of_nat (length (cells im)) = image_size g →
  ∃ out, Fold g (replicate (Z.to_nat (patch_size g)) 1) im = Some out ∧
    ∀ c_im h_pad w_pad,
      0 ≤ c_im < channels g → 0 ≤ h_pad < height g → 0 ≤ w_pad < width g →
      load (cells out) (im_offset g c_im h_pad w_pad)
      = Some (Z.of_nat (length (covering g c_im h_pad w_pad))).
Proof.
  intros Hpos Hfit _ Hhc Hwc Hb.
  assert (0 ≤ patch_size g).
  { destruct Hpos as (?&?&?&?&?&?&?). unfold patch_size, channels_col. nia. }
  destruct (Fold_value g (replicate (Z.to_nat (patch_size g)) 1) im)
    as (out & later & Hrun & _ & _ & _ & Hval);
    [done|done|rewrite length_replicate; lia|done|].
  exists out. split; [done|]. intros ci r q Hci Hr Hq.
  etrans; [apply (Hval ci r q Hci Hr Hq)|]. f_equal.
  etrans; [apply foldl_add_sumZ|]. rewrite Z.add_0_l.
  rewrite (sumZ_fmap_const _ 1); [lia|]. intros t Ht.
  apply list_elem_of_filter in Ht as [_ Ht].
  pose proof (slot_of_range g t Ht).
  unfold value_at, load. rewrite decide_True by lia.
  rewrite lookup_replicate_2; [done|lia].
Qed.

Lemma fold_ones_counts_coverage_witness :
  ∃ out, Fold g443 (replicate 36 1) (fresh (replicate 16 7)) = Some out ∧
    ∀ c_im h_pad w_pad, 0 ≤ c_im < 1 → 0 ≤ h_pad < 4 → 0 ≤ w_pad < 4 →
      load (cells out) (im_offset g443 c_im h_pad w_pad)
      = Some (Z.of_nat (length (covering g443 c_im h_pad w_pad))).
Proof.
  exact (fold_ones_counts_coverage g443 (fresh (replicate 16 7))
           ltac:(unfold positive_sizes; simpl; lia)
           ltac:(vm_compute; intuition discriminate) ltac:(left; simpl; lia)
           ltac:(vm_compute; congruence) ltac:(vm_compute; congruence)
           ltac:(reflexivity)).
Defined.

(** The count really varies: 4 in the middle of the 4x4 image, 1 in its
    corner. *)
Example coverage_g443 :
  length (covering g443 0 1 1) = 4%nat ∧ length (covering g443 0 0 0) = 1%nat.
Proof. by vm_compute. Qed.

(** ** Fold: locations no patch covers *)

(** C8. An image location that no index triple decodes to holds zero
    after Fold, whatever the patch matrix and the image buffer held.
    All sizes are positive and fit in [int] arithmetic. *)
Theorem fold_uncovered_is_zero `{Scalar Dtype} (g : geometry)
    (patch : list Dtype) (im : outbuf Dtype) (c_im h_pad w_pad : Z) :
  positive_sizes g → fits_int g → 1 ≤ height_col g → 1 ≤ width_col g →
  Z.of_nat (length patch) = patch_size g →
  Z.of_nat (length (cells im)) = image_size g →
  0 ≤ c_im < channels g → 0 ≤ h_pad < height g → 0 ≤ w_pad < width g →
  (∀ h w c,
     0 ≤ h < height_col g → 0 ≤ w < width_col g → 0 ≤ c < channels_col g →
     ¬ (dec_c g c = c_im ∧ row_of g h c = h_pad ∧ col_of g w c = w_pad)) →
  ∃ out, Fold g patch im = Some out
    ∧ load (cells out) (im_offset g c_im h_pad w_pad) = Some zero.
Proof.
  intros Hpos Hfit _ _ Hp Hb Hci Hr Hq Hnone.
  destruct (Fold_value g patch im Hpos Hfit Hp Hb)
    as (out & later & Hrun & _ & _ & _ & Hval).
  exists out. split; [done|]. rewrite Hval by done.
  unfold covering. rewrite filter_none; [done|].
  intros [[c h] w] Ht Hl. apply elem_of_triples in Ht.
  apply Is_true_true, lands_spec in Hl. apply (Hnone h w c); [lia..|done].
Qed.

Lemma fold_uncovered_is_zero_witness :
  ∃ out, Fold g_skip [5; 6; 7; 8] (fresh (replicate 9 3)) = Some out
    ∧ load (cells out) (im_offset g_skip 0 1 1) = Some 0.
Proof.
  refine (fold_uncovered_is_zero g_skip [5; 6; 7; 8] (fresh (replicate 9 3)) 0 1 1
           ltac:(unfold positive_sizes; simpl; lia)
           ltac:(vm_compute; intuition discriminate)
           ltac:(vm_compute; congruence) ltac:(vm_compute; congruence)
           ltac:(reflexivity) ltac:(reflexivity)
           ltac:(simpl; lia) ltac:(simpl; lia) ltac:(simpl; lia) _).
  intros h w c _ _ Hc (_ & Hrow & _).
  unfold row_of, dec_h in Hrow. simpl in Hrow.
  rewrite Z.mod_1_r in Hrow. lia.
Defined.

(** ** Fold after Unfold *)

Lemma length_one {A} (l : list A) : length l = 1%nat → ∃ x, l = [x].
Proof. destruct l as [|x [|??]]; intros; simplify_eq/=. by exists x. Qed.

Lemma compose_range (g : geometry) ci i j :
  1 ≤ kernel_h g → 1 ≤ kernel_w g →
  0 ≤ ci < channels g → 0 ≤ i < kernel_h g → 0 ≤ j < kernel_w g →
  0 ≤ ci * (kernel_h g * kernel_w g) + i * kernel_w g + j < channels_col g.
Proof.
  unfold channels_col. intros ?? Hci Hi Hj.
  assert (0 ≤ i * kernel_w g ≤ (kernel_h g - 1) * kernel_w g) by nia.
  assert (0 ≤ ci * (kernel_h g * kernel_w g)
          ≤ (channels g - 1) * (kernel_h g * kernel_w g)) by nia.
  lia.
Qed.

(** A location whose row and column are each in one window is the target
    of exactly one index triple. *)
Lemma covering_unique (g : geometry) ci r q :
  positive_sizes g →
  0 ≤ ci < channels g → 0 ≤ r < height g → 0 ≤ q < width g →
  length (row_cover g r) = 1%nat → length (col_cover g q) = 1%nat →
  ∃ t, covering g ci r q = [t] ∧ t ∈ triples g
    ∧ inside_at g t = true ∧ target g t = im_offset g ci r q.
Proof.
  intros (?&?&?&?&?&?&?) Hci Hr Hq Hrow Hcol.
  apply length_one in Hrow as [h0 Hrow]. apply length_one in Hcol as [w0 Hcol].
  assert (h0 ∈ row_cover g r) as Hh0 by (rewrite Hrow; left).
  assert (w0 ∈ col_cover g q) as Hw0 by (rewrite Hcol; left).
  apply list_elem_of_filter in Hh0 as [Hi0 Hh0].
  apply list_elem_of_filter in Hw0 as [Hj0 Hw0].
  apply elem_of_seqZ in Hh0, Hw0.
  set (i0 := r - (h0 * stride_h g - pad_h g)) in *.
  set (j0 := q - (w0 * stride_w g - pad_w g)) in *.
  set (c0 := ci * (kernel_h g * kernel_w g) + i0 * kernel_w g + j0).
  destruct (dec_of_compose g ci i0 j0 Hi0 Hj0) as (Hdc & Hdh & Hdw).
  fold c0 in Hdc, Hdh, Hdw.
  assert (0 ≤ c0 < channels_col g) as Hc0 by by apply compose_range.
  assert (row_of g h0 c0 = r) as Hr0 by (unfold row_of; rewrite Hdh; lia).
  assert (col_of g w0 c0 = q) as Hq0 by (unfold col_of; rewrite Hdw; lia).
  exists (c0, h0, w0). split_and!.
  - apply filter_unique; [apply NoDup_triples| | |].
    + apply elem_of_triples. lia.
    + by apply Is_true_true, lands_spec.
    + intros [[c h] w] Ht Hl. apply elem_of_triples in Ht.
      apply Is_true_true, lands_spec in Hl as (Hc & Hrc & Hqc).
      pose proof (dec_h_range g c). pose proof (dec_w_range g c).
      assert (h ∈ row_cover g r) as Hh.
      { apply list_elem_of_filter. rewrite elem_of_seqZ.
        unfold row_of in Hrc. split; lia. }
      assert (w ∈ col_cover g q) as Hw.
      { apply list_elem_of_filter. rewrite elem_of_seqZ.
        unfold col_of in Hqc. split; lia. }
      rewrite Hrow in Hh. rewrite Hcol in Hw.
      apply list_elem_of_singleton in Hh, Hw. subst h w.
      assert (c = c0) as ->; [|done].
      rewrite (dec_compose g c) by lia. unfold c0, i0, j0.
      unfold row_of in Hrc. unfold col_of in Hqc. rewrite Hc.
      replace (dec_h g c) with (r - (h0 * stride_h g - pad_h g)) by lia.
      replace (dec_w g c) with (q - (w0 * stride_w g - pad_w g)) by lia.
      done.
  - apply elem_of_triples. lia.
  - apply inside_spec. lia.
  - unfold target. by rewrite Hdc, Hr0, Hq0.
Qed.

(** C3. Without padding, with strides at least the kernel sizes, and with
    every image row and every image column inside the window of exactly
    one patch, Fold of the result of Unfold is the image, cell for cell,
    over the exact scalar type [Z].
    All sizes are positive and fit in [int] arithmetic. *)
Theorem fold_unfold_roundtrip (g : geometry) (image : list Z)
    (pbuf ibuf : outbuf Z) :
  positive_sizes g → fits_int g → pad_h g = 0 → pad_w g = 0 →
  kernel_h g ≤ stride_h g → kernel_w g ≤ stride_w g →
  1 ≤ height_col g → 1 ≤ width_col g →
  (∀ r, 0 ≤ r < height g → length (row_cover g r) = 1%nat) →
  (∀ q, 0 ≤ q < width g → length (col_cover g q) = 1%nat) →
  Z.of_nat (length image) = image_size g →
  Z.of_nat (length (cells pbuf)) = patch_size g →
  Z.of_nat (length (cells ibuf)) = image_size g →
  ∃ p out, Unfold g image pbuf = Some p
    ∧ Fold g (cells p) ibuf = Some out
    ∧ cells out = image.
Proof.
  intros Hpos Hfit _ _ _ _ _ _ Hrows Hcols Him Hpbuf Hibuf.
  destruct (Unfold_spec g image pbuf Hpos Hfit Him Hpbuf)
    as (p & Hp & Hplen & _ & Hpval).
  destruct (Fold_value g (cells p) ibuf Hpos Hfit) as (out & ? & Hout & Holen & _ & _ & Hval);
    [lia|done|].
  exists p, out. split_and!; [done..|].
  apply load_ext; [lia|]. intros j.
  destruct (decide (0 ≤ j < image_size g)) as [Hj|Hj].
  - destruct (im_offset_surj g j Hj) as (ci & r & q & Hci & Hr & Hq & <-);
      [unfold positive_sizes in Hpos; lia..|].
    destruct (covering_unique g ci r q Hpos Hci Hr Hq (Hrows r Hr) (Hcols q Hq))
      as (t & Hcov & Ht & Hin & Htgt).
    rewrite (Hval ci r q Hci Hr Hq), Hcov. simpl.
    rewrite (load_value_at image) by lia. f_equal.
    pose proof (Hpval t Ht) as Hpt.
    unfold value_at at 1. rewrite Hpt. simpl.
    unfold entry. by rewrite Hin, Htgt.
  - outside_both.
Qed.

Lemma fold_unfold_roundtrip_witness :
  ∃ p out, Unfold g_tile image16 (fresh (replicate 16 7)) = Some p
    ∧ Fold g_tile (cells p) (fresh (replicate 16 9)) = Some out
    ∧ cells out = image16.
Proof.
  refine (fold_unfold_roundtrip g_tile image16
            (fresh (replicate 16 7)) (fresh (replicate 16 9))
            ltac:(unfold positive_sizes; simpl; lia)
           ltac:(vm_compute; intuition discriminate)
            ltac:(reflexivity) ltac:(reflexivity)
            ltac:(simpl; lia) ltac:(simpl; lia)
            ltac:(vm_compute; congruence) ltac:(vm_compute; congruence)
            _ _ ltac:(reflexivity) ltac:(reflexivity) ltac:(reflexivity)).
  - intros r Hr. simpl in Hr.
    assert (r = 0 ∨ r = 1 ∨ r = 2 ∨ r = 3) as [->|[->|[->| ->]]] by lia;
      reflexivity.
  - intros q Hq. simpl in Hq.
    assert (q = 0 ∨ q = 1 ∨ q = 2 ∨ q = 3) as [->|[->|[->| ->]]] by lia;
      reflexivity.
Defined.

(** ** Fold is additive *)

Section FoldCells.
Context `{Scalar Dtype}.

Lemma added_at_fold_adds g (patch : list Dtype) j :
  added_at j (fold_adds g patch)
  = (λ t, value_at patch (slot_of g t))
      <$> filter (λ t, target g t = j) (filter (inside_at g) (triples g)).
Proof.
  unfold added_at, fold_adds. by rewrite filter_fmap', <-list_fmap_compose.
Qed.

(** The result of Fold does not depend on what the image buffer held. *)
Lemma Fold_cells_indep g (patch : list Dtype) (b1 b2 r1 r2 : outbuf Dtype) :
  positive_sizes g → fits_int g →
  Z.of_nat (length patch) = patch_size g →
  Z.of_nat (length (cells b1)) = image_size g →
  Z.of_nat (length (cells b2)) = image_size g →
  Fold g patch b1 = Some r1 → Fold g patch b2 = Some r2 →
  cells r1 = cells r2.
Proof.
  intros Hpos Hfit Hp Hb1 Hb2 Hr1 Hr2.
  destruct (Fold_spec g patch b1) as (r1' & ? & Hr1' & Hlen1 & _ & _ & Hval1);
    [done..|].
  destruct (Fold_spec g patch b2) as (r2' & ? & Hr2' & Hlen2 & _ & _ & Hval2);
    [done..|].
  simplify_eq. apply load_ext; [lia|]. intros j.
  destruct (decide (0 ≤ j < image_size g)) as [Hj|Hj].
  - by rewrite Hval1, Hval2.
  - outside_both.
Qed.
End FoldCells.

Lemma load_zip_add (l1 l2 : list Z) j x y :
  load l1 j = Some x → load l2 j = Some y →
  load (zip_with Z.add l1 l2) j = Some (x + y).
Proof.
  unfold load. case_decide; [|done]. intros H1 H2.
  by rewrite lookup_zip_with, H1, H2.
Qed.

(** C9. Over the integers Fold is additive in the patch matrix: the fold
    of a cell-wise sum is the cell-wise sum of the folds, and the fold of
    the all-zero patch matrix is the all-zero image; the prior contents of
    the image buffers play no role.
    All sizes are positive and fit in [int] arithmetic. *)
Theorem fold_additive (g : geometry) (p1 p2 : list Z) (b1 b2 b12 b0 : outbuf Z) :
  positive_sizes g → fits_int g →
  Z.of_nat (length p1) = patch_size g → Z.of_nat (length p2) = patch_size g →
  Z.of_nat (length (cells b1)) = image_size g →
  Z.of_nat (length (cells b2)) = image_size g →
  Z.of_nat (length (cells b12)) = image_size g →
  Z.of_nat (length (cells b0)) = image_size g →
  ∃ r1 r2 r12 r0,
    Fold g p1 b1 = Some r1 ∧ Fold g p2 b2 = Some r2
    ∧ Fold g (zip_with Z.add p1 p2) b12 = Some r12
    ∧ cells r12 = zip_with Z.add (cells r1) (cells r2)
    ∧ Fold g (replicate (length p1) 0) b0 = Some r0
    ∧ cells r0 = replicate (Z.to_nat (image_size g)) 0.
Proof.
  intros Hpos Hfit Hp1 Hp2 Hb1 Hb2 Hb12 Hb0.
  destruct (Fold_spec g p1 b1) as (r1 & ? & Hr1 & Hlen1 & _ & _ & Hval1);
    [done..|].
  destruct (Fold_spec g p2 b2) as (r2 & ? & Hr2 & Hlen2 & _ & _ & Hval2);
    [done..|].
  destruct (Fold_spec g (zip_with Z.add p1 p2) b12)
    as (r12 & ? & Hr12 & Hlen12 & _ & _ & Hval12);
    [done|done|rewrite length_zip_with; lia|done|].
  destruct (Fold_spec g (replicate (length p1) 0) b0)
    as (r0 & ? & Hr0 & Hlen0 & _ & _ & Hval0);
    [done|done|rewrite length_replicate; lia|done|].
  exists r1, r2, r12, r0. split_and!; try done.
  - apply load_ext; [rewrite length_zip_with; lia|]. intros j.
    destruct (decide (0 ≤ j < image_size g)) as [Hj|Hj].
    + rewrite (load_zip_add _ _ _ _ _ (Hval1 j Hj) (Hval2 j Hj)), Hval12 by done.
      f_equal. rewrite !added_at_fold_adds.
      etrans; [apply foldl_add_sumZ|].
      rewrite (foldl_add_sumZ 0 (_ <$> _)), (foldl_add_sumZ 0 (_ <$> _)).
      change (@zero Z Z_Scalar) with 0. rewrite !Z.add_0_l.
      apply sumZ_fmap_add. intros t Ht.
      apply list_elem_of_filter in Ht as [_ Ht].
      apply list_elem_of_filter in Ht as [_ Ht].
      pose proof (slot_of_range g t Ht) as Hs.
      assert (load (zip_with Z.add p1 p2) (slot_of g t)
              = Some (value_at p1 (slot_of g t) + value_at p2 (slot_of g t))) as Hz
        by (apply load_zip_add; apply load_value_at; lia).
      unfold value_at at 1. by rewrite Hz.
    + outside_both.
  - apply load_ext; [rewrite length_replicate; lia|]. intros j.
    destruct (decide (0 ≤ j < image_size g)) as [Hj|Hj].
    + rewrite Hval0 by done. rewrite added_at_fold_adds.
      etrans; [|symmetry; unfold load; rewrite decide_True by lia;
                apply lookup_replicate_2; lia].
      f_equal. etrans; [apply foldl_add_sumZ|].
      rewrite (sumZ_fmap_const _ 0); [done|]. intros t _.
      unfold value_at, load. case_decide; [|done].
      by destruct (replicate _ _ !! _) eqn:Hl;
        [apply lookup_replicate in Hl as [-> _]|].
    + outside_both.
Qed.

Lemma fold_additive_witness :
  ∃ r1 r2 r12 r0,
    Fold g443 (seqZ 1 36) (fresh (replicate 16 7)) = Some r1
    ∧ Fold g443 (replicate 36 2) (fresh (replicate 16 8)) = Some r2
    ∧ Fold g443 (zip_with Z.add (seqZ 1 36) (replicate 36 2))
        (fresh (replicate 16 9)) = Some r12
    ∧ cells r12 = zip_with Z.add (cells r1) (cells r2)
    ∧ Fold g443 (replicate 36 0) (fresh (replicate 16 5)) = Some r0
    ∧ cells r0 = replicate 16 0.
Proof.
  exact (fold_additive g443 (seqZ 1 36) (replicate 36 2)
           (fresh (replicate 16 7)) (fresh (replicate 16 8))
           (fresh (replicate 16 9)) (fresh (replicate 16 5))
           ltac:(unfold positive_sizes; simpl; lia)
           ltac:(vm_compute; intuition discriminate)
           ltac:(reflexivity) ltac:(reflexivity) ltac:(reflexivity)
           ltac:(reflexivity) ltac:(reflexivity) ltac:(reflexivity)).
Defined.

(** ** The 4x4 scenario *)

(** C5. One channel, a 4x4 image, a 3x3 kernel, no padding, stride 1: the
    derived sizes are [height_col = width_col = 2] and [channels_col = 9];
    Unfold of the row-major image 1..16 leaves at output position (0,0),
    that is at offsets 0..8, the values 1,2,3,5,6,7,9,10,11; and Fold of
    the all-ones 2x2x9 patch matrix leaves the image of coverage counts
    1,2,2,1 / 2,4,4,2 / 2,4,4,2 / 1,2,2,1 -- whatever the two output
    buffers held before. *)
Theorem scenario_4x4 (pbuf ibuf : outbuf Z) :
  length (cells pbuf) = 36%nat → length (cells ibuf) = 16%nat →
  height_col g443 = 2 ∧ width_col g443 = 2 ∧ channels_col g443 = 9
  ∧ (∃ p, Unfold g443 image16 pbuf = Some p
       ∧ slot g443 0 0 <$> seqZ 0 9 = [0; 1; 2; 3; 4; 5; 6; 7; 8]
       ∧ take 9 (cells p) = [1; 2; 3; 5; 6; 7; 9; 10; 11])
  ∧ (∃ im, Fold g443 (replicate 36 1) ibuf = Some im
       ∧ cells im = [1; 2; 2; 1;  2; 4; 4; 2;  2; 4; 4; 2;  1; 2; 2; 1]).
Proof.
  intros Hp Hi.
  assert (positive_sizes g443) as Hpos by (unfold positive_sizes; simpl; lia).
  assert (fits_int g443) as Hfit by (vm_compute; intuition discriminate).
  split_and!; [done..| |].
  - destruct (Unfold_spec g443 image16 pbuf Hpos Hfit) as (p & Hrun & _);
      [done|by rewrite Hp|].
    destruct (Unfold_spec g443 image16 (fresh (replicate 36 0)) Hpos Hfit)
      as (p0 & Hrun0 & _); [done..|].
    exists p. split_and!; [done..|].
    assert (cells p = cells p0) as ->.
    { refine (Unfold_cells_indep g443 image16 pbuf (fresh (replicate 36 0)) p p0
                Hpos Hfit _ eq_refl _ eq_refl Hrun Hrun0).
      - by vm_compute.
      - by rewrite Hp. }
    vm_compute in Hrun0. by simplify_eq.
  - destruct (Fold_spec g443 (replicate 36 1) ibuf Hpos Hfit) as (im & ? & Hrun & _);
      [done|by rewrite Hi|].
    destruct (Fold_spec g443 (replicate 36 1) (fresh (replicate 16 0)) Hpos Hfit)
      as (im0 & ? & Hrun0 & _); [done..|].
    exists im. split; [done|].
    assert (cells im = cells im0) as ->.
    { refine (Fold_cells_indep g443 (replicate 36 1) ibuf (fresh (replicate 16 0))
                im im0 Hpos Hfit eq_refl _ eq_refl Hrun Hrun0).
      by rewrite Hi. }
    vm_compute in Hrun0. by simplify_eq.
Qed.

Lemma scenario_4x4_witness :
  height_col g443 = 2 ∧ width_col g443 = 2 ∧ channels_col g443 = 9
  ∧ (∃ p, Unfold g443 image16 (fresh (replicate 36 7)) = Some p
       ∧ slot g443 0 0 <$> seqZ 0 9 = [0; 1; 2; 3; 4; 5; 6; 7; 8]
       ∧ take 9 (cells p) = [1; 2; 3; 5; 6; 7; 9; 10; 11])
  ∧ (∃ im, Fold g443 (replicate 36 1) (fresh (replicate 16 7)) = Some im
       ∧ cells im = [1; 2; 2; 1;  2; 4; 4; 2;  2; 4; 4; 2;  1; 2; 2; 1]).
Proof.
  exact (scenario_4x4 (fresh (replicate 36 7)) (fresh (replicate 16 7))
           ltac:(reflexivity) ltac:(reflexivity)).
Defined.

(** * Further properties of the two transforms *)

(** ** Buffers larger than required *)

Section Larger.
Context `{Scalar Dtype}.
Implicit Types (g : geometry) (b : outbuf Dtype) (t : Z * Z * Z).

Lemma im2col_body_store_ge g image t b :
  positive_sizes g → image_size g ≤ Z.of_nat (length image) → t ∈ triples g →
  im2col_body g image t b = store b (slot_of g t) (entry g image t).
Proof.
  intros Hpos Hlen Ht. pose proof (target_range g t Hpos Ht) as Hrange.
  destruct Hpos as (?&?&?&?&?&?&?). destruct t as [[c h] w].
  pose proof Ht as Hin. apply elem_of_triples in Hin.
  unfold im2col_body, entry, target, inside_at in *.
  rewrite code_inside, code_dec_h, code_dec_w, code_dec_c by lia.
  fold (row_of g h c) (col_of g w c).
  fold (im_offset g (dec_c g c) (row_of g h c) (col_of g w c)).
  destruct (inside g h w c); [|done].
  rewrite load_value_at; [done|]. specialize (Hrange eq_refl). lia.
Qed.

Lemma col2im_body_add_ge g patch t b :
  positive_sizes g → patch_size g ≤ Z.of_nat (length patch) → t ∈ triples g →
  col2im_body g patch t b =
    if inside_at g t
    then old ← load (cells b) (target g t);
         store b (target g t) (add old (value_at patch (slot_of g t)))
    else Some b.
Proof.
  intros Hpos Hlen Ht. pose proof (slot_of_range g t Ht) as Hrange.
  destruct Hpos as (?&?&?&?&?&?&?). destruct t as [[c h] w].
  pose proof Ht as Hin. apply elem_of_triples in Hin.
  unfold col2im_body, target, inside_at, slot_of in *.
  rewrite code_inside, code_dec_h, code_dec_w, code_dec_c by lia.
  fold (row_of g h c) (col_of g w c).
  fold (im_offset g (dec_c g c) (row_of g h c) (col_of g w c)).
  destruct (inside g h w c); [|done].
  rewrite (load_value_at patch); [reflexivity|]. lia.
Qed.

Lemma Unfold_run_ge g image b :
  positive_sizes g → fits_int g → image_size g ≤ Z.of_nat (length image) →
  Unfold g image b = run_stores (unfold_stores g image) b.
Proof.
  intros Hpos Hfit Hlen. pose proof Hpos as (?&?&?&?&?&?&?).
  rewrite Unfold_loops by done.
  unfold run_stores, unfold_stores. rewrite foldM_fmap.
  apply foldM_ext_in. intros t s Ht. by apply im2col_body_store_ge.
Qed.

Lemma Fold_run_ge g patch b :
  positive_sizes g → fits_int g → patch_size g ≤ Z.of_nat (length patch) →
  Fold g patch b =
    run_stores (zero_stores (image_size g)) b ≫= run_adds (fold_adds g patch).
Proof.
  intros Hpos Hfit Hlen. pose proof Hpos as (?&?&?&?&?&?&?).
  rewrite Fold_loops by done.
  replace (height g * width g * channels g) with (image_size g)
    by (unfold image_size; lia).
  apply option_bind_ext; [intros b0|done].
  unfold run_adds, fold_adds. rewrite foldM_fmap, <-foldM_filter.
  apply foldM_ext_in. intros t s Ht. by apply col2im_body_add_ge.
Qed.

(** What an image holds beyond its [image_size] cells, and a patch matrix
    beyond its [patch_size] cells, plays no role. *)
Lemma value_at_app (l extra : list Dtype) i :
  0 ≤ i < Z.of_nat (length l) → value_at (l ++ extra) i = value_at l i.
Proof.
  intros Hi. unfold value_at, load. rewrite !decide_True by lia.
  rewrite lookup_app_l by lia. done.
Qed.

Lemma unfold_stores_app g image extra :
  positive_sizes g → Z.of_nat (length image) = image_size g →
  unfold_stores g (image ++ extra) = unfold_stores g image.
Proof.
  intros Hpos Hlen. unfold unfold_stores. apply list_fmap_ext.
  intros _ t Ht%list_elem_of_lookup_2. f_equal. unfold entry.
  pose proof (target_range g t Hpos Ht) as Hrange.
  destruct (inside_at g t); [|done].
  apply value_at_app. specialize (Hrange eq_refl). lia.
Qed.

Lemma fold_adds_app g patch extra :
  Z.of_nat (length patch) = patch_size g →
  fold_adds g (patch ++ extra) = fold_adds g patch.
Proof.
  intros Hlen. unfold fold_adds. apply list_fmap_ext.
  intros _ t Ht%list_elem_of_lookup_2. f_equal.
  apply list_elem_of_filter in Ht as [_ Ht].
  pose proof (slot_of_range g t Ht). apply value_at_app. lia.
Qed.

(** The zero-filling loop on a buffer of at least [n] cells. *)
Lemma zero_fill_ge n b :
  n ≤ Z.of_nat (length (cells b)) →
  ∃ b0, run_stores (zero_stores n) b = Some b0
    ∧ length (cells b0) = length (cells b)
    ∧ stores b0 = reverse (zero_stores n) ++ stores b
    ∧ (∀ j, 0 ≤ j < n → load (cells b0) j = Some zero)
    ∧ (∀ j, n ≤ j → load (cells b0) j = load (cells b) j).
Proof.
  intros Hn.
  destruct (run_stores_spec (zero_stores n) b)
    as (b0 & Hrun & Hlen & Hlog & Hold & Hnew).
  { apply Forall_fmap, Forall_seqZ. intros i ?. unfold in_range. simpl. lia. }
  exists b0. split_and!; try done.
  - intros j Hj. apply (Hnew ltac:(unfold zero_stores;
      rewrite <-list_fmap_compose; simpl; rewrite list_fmap_id;
      apply NoDup_seqZ) (j, zero)).
    apply list_elem_of_fmap. exists j. split; [done|]. apply elem_of_seqZ. lia.
  - intros j Hj. apply Hold. unfold zero_stores.
    rewrite <-list_fmap_compose. simpl. rewrite list_fmap_id, elem_of_seqZ. lia.
Qed.

Lemma Unfold_spec_ge g image b :
  positive_sizes g → fits_int g →
  image_size g ≤ Z.of_nat (length image) →
  patch_size g ≤ Z.of_nat (length (cells b)) →
  ∃ b', Unfold g image b = Some b'
    ∧ length (cells b') = length (cells b)
    ∧ stores b' = reverse (unfold_stores g image) ++ stores b
    ∧ (∀ j, patch_size g ≤ j → load (cells b') j = load (cells b) j)
    ∧ ∀ t, t ∈ triples g → load (cells b') (slot_of g t) = Some (entry g image t).
Proof.
  intros Hpos Hfit Him Hb. rewrite Unfold_run_ge by done.
  destruct (run_stores_spec (unfold_stores g image) b)
    as (b' & Hrun & Hlen & Hlog & Hold & Hnew).
  { apply Forall_fmap, Forall_forall. intros t Ht.
    unfold in_range. simpl. pose proof (slot_of_range g t Ht). lia. }
  exists b'. split_and!; try done.
  - intros j Hj. apply Hold. unfold unfold_stores.
    rewrite <-list_fmap_compose. intros (t & -> & Ht)%list_elem_of_fmap.
    simpl in Hj. pose proof (slot_of_range g t Ht). lia.
  - intros t Ht.
    apply (Hnew (NoDup_unfold_slots g image) (slot_of g t, entry g image t)).
    apply list_elem_of_fmap. by exists t.
Qed.

Lemma Fold_spec_ge g patch b :
  positive_sizes g → fits_int g →
  patch_size g ≤ Z.of_nat (length patch) →
  image_size g ≤ Z.of_nat (length (cells b)) →
  ∃ b', Fold g patch b = Some b'
    ∧ length (cells b') = length (cells b)
    ∧ (∀ j, image_size g ≤ j → load (cells b') j = load (cells b) j)
    ∧ ∀ j, 0 ≤ j < image_size g →
        load (cells b') j = Some (foldl add zero (added_at j (fold_adds g patch))).
Proof.
  intros Hpos Hfit Hp Hb. rewrite Fold_run_ge by done.
  destruct (zero_fill_ge (image_size g) b Hb)
    as (b0 & -> & Hlen0 & _ & Hzero & Hrest). simpl.
  destruct (run_adds_spec (fold_adds g patch) b0)
    as (b' & later & Hrun & Hlen & _ & _ & Hval).
  { eapply Forall_impl; [by apply fold_adds_in_range|].
    intros u. unfold in_range. lia. }
  exists b'. split_and!; [done|lia| |].
  - intros j Hj. rewrite Hval, Hrest by done.
    unfold added_at. rewrite filter_none; [by destruct (load _ j)|].
    intros u Hu Heq.
    pose proof (proj1 (Forall_forall _ _) (fold_adds_in_range g patch Hpos) u Hu)
      as Hr. unfold in_range in Hr. lia.
  - intros j Hj. by rewrite Hval, Hzero.
Qed.
End Larger.

(** X1. With an image of [image_size] cells followed by anything, and an
    output buffer of at least [patch_size] cells, Unfold returns, reads
    nothing of what follows the image, fills the slots of the index space
    as on exact-size buffers, and leaves every output cell from offset
    [patch_size] on as it was.
    All sizes are positive and fit in [int] arithmetic. *)
Theorem unfold_larger_buffers `{Scalar Dtype} (g : geometry)
    (image extra : list Dtype) (out : outbuf Dtype) :
  positive_sizes g → fits_int g →
  Z.of_nat (length image) = image_size g →
  patch_size g ≤ Z.of_nat (length (cells out)) →
  ∃ out', Unfold g (image ++ extra) out = Some out'
    ∧ length (cells out') = length (cells out)
    ∧ stores out' = reverse (unfold_stores g image) ++ stores out
    ∧ (∀ j, patch_size g ≤ j → load (cells out') j = load (cells out) j)
    ∧ ∀ h w c,
        0 ≤ h < height_col g → 0 ≤ w < width_col g → 0 ≤ c < channels_col g →
        load (cells out') (slot g h w c) = Some (entry g image (c, h, w)).
Proof.
  intros Hpos Hfit Him Hout.
  destruct (Unfold_spec_ge g (image ++ extra) out Hpos Hfit)
    as (out' & Hrun & Hlen & Hlog & Hrest & Hval);
    [rewrite length_app; lia|done|].
  rewrite unfold_stores_app in Hlog by done.
  exists out'. split_and!; try done. intros h w c Hh Hw Hc.
  assert ((c, h, w) ∈ triples g) as Ht by by apply elem_of_triples.
  etrans; [apply (Hval _ Ht)|]. f_equal.
  pose proof (target_range g _ Hpos Ht) as Hrange.
  unfold entry. destruct (inside_at g (c, h, w)); [|done].
  apply value_at_app. specialize (Hrange eq_refl). lia.
Qed.

Lemma unfold_larger_buffers_witness :
  ∃ out', Unfold g443 (image16 ++ [99; 98]) (fresh (replicate 40 7)) = Some out'
    ∧ length (cells out') = 40%nat
    ∧ stores out' = reverse (unfold_stores g443 image16) ++ []
    ∧ (∀ j, 36 ≤ j → load (cells out') j = load (replicate 40 7) j)
    ∧ ∀ h w c, 0 ≤ h < 2 → 0 ≤ w < 2 → 0 ≤ c < 9 →
        load (cells out') (slot g443 h w c) = Some (entry g443 image16 (c, h, w)).
Proof.
  exact (unfold_larger_buffers g443 image16 [99; 98] (fresh (replicate 40 7))
           ltac:(unfold positive_sizes; simpl; lia)
           ltac:(vm_compute; intuition discriminate)
           ltac:(reflexivity) ltac:(vm_compute; congruence)).
Defined.

(** X2. With a patch matrix of [patch_size] cells followed by anything,
    and an image buffer of at least [image_size] cells, Fold returns,
    reads nothing of what follows the patch matrix, leaves in each of the
    first [image_size] cells the values added to it starting from zero,
    and leaves every cell from offset [image_size] on as it was: it is
    neither zeroed nor added to.
    All sizes are positive and fit in [int] arithmetic. *)
Theorem fold_larger_buffers `{Scalar Dtype} (g : geometry)
    (patch extra : list Dtype) (im : outbuf Dtype) :
  positive_sizes g → fits_int g →
  Z.of_nat (length patch) = patch_size g →
  image_size g ≤ Z.of_nat (length (cells im)) →
  ∃ out', Fold g (patch ++ extra) im = Some out'
    ∧ length (cells out') = length (cells im)
    ∧ (∀ j, image_size g ≤ j → load (cells out') j = load (cells im) j)
    ∧ ∀ j, 0 ≤ j < image_size g →
        load (cells out') j = Some (foldl add zero (added_at j (fold_adds g patch))).
Proof.
  intros Hpos Hfit Hp Him.
  destruct (Fold_spec_ge g (patch ++ extra) im Hpos Hfit)
    as (out' & Hrun & Hlen & Hrest & Hval); [rewrite length_app; lia|done|].
  exists out'. split_and!; try done.
  intros j Hj. rewrite Hval by done. by rewrite fold_adds_app.
Qed.

Lemma fold_larger_buffers_witness :
  ∃ out', Fold g443 (replicate 36 1 ++ [99]) (fresh (replicate 20 7)) = Some out'
    ∧ length (cells out') = 20%nat
    ∧ (∀ j, 16 ≤ j → load (cells out') j = load (replicate 20 7) j)
    ∧ ∀ j, 0 ≤ j < 16 →
        load (cells out') j
        = Some (foldl Z.add 0 (added_at j (fold_adds g443 (replicate 36 1)))).
Proof.
  exact (fold_larger_buffers g443 (replicate 36 1) [99] (fresh (replicate 20 7))
           ltac:(unfold positive_sizes; simpl; lia)
           ltac:(vm_compute; intuition discriminate)
           ltac:(reflexivity) ltac:(vm_compute; congruence)).
Defined.

(** ** Buffers shorter than required, and a zero stride *)

Lemma foldM_None_at {A S} (I : S → Prop) (f : A → S → option S) l x s :
  (∀ y s s', f y s = Some s' → I s → I s') →
  x ∈ l → (∀ s, I s → f x s = None) → I s → foldM f l s = None.
Proof.
  intros Hinv Hx Hfail. revert s.
  induction l as [|y l IH]; intros s Hs; [by apply elem_of_nil in Hx|].
  simpl. apply elem_of_cons in Hx as [->|Hx].
  - by rewrite Hfail.
  - destruct (f y s) as [s'|] eqn:Hf; [|done]. simpl.
    apply IH; [done|]. by apply (Hinv y s).
Qed.

Lemma store_length {A} (b b' : outbuf A) i v :
  store b i v = Some b' → length (cells b') = length (cells b).
Proof.
  unfold store. case_decide; [|done]. intros [= <-]. simpl.
  by rewrite length_insert.
Qed.

Lemma store_None {A} (b : outbuf A) i v :
  Z.of_nat (length (cells b)) ≤ i → store b i v = None.
Proof. intros. unfold store. rewrite decide_False; [done|lia]. Qed.

(** X3. On a geometry with positive sizes, at least one output row and
    column, and an image of at least [image_size] cells, Unfold returns
    exactly when the output buffer has at least [patch_size] cells; on a
    shorter one it stores out of bounds.
    All sizes are positive and fit in [int] arithmetic. *)
Theorem unfold_returns_iff `{Scalar Dtype} (g : geometry)
    (image : list Dtype) (out : outbuf Dtype) :
  positive_sizes g → fits_int g → 1 ≤ height_col g → 1 ≤ width_col g →
  image_size g ≤ Z.of_nat (length image) →
  is_Some (Unfold g image out) ↔ patch_size g ≤ Z.of_nat (length (cells out)).
Proof.
  intros Hpos Hfit Hhc Hwc Him. split.
  - intros Hsome. destruct (Z_le_gt_dec (patch_size g) (Z.of_nat (length (cells out))))
      as [|Hshort]; [done|]. exfalso.
    pose proof Hpos as (?&?&?&?&?&?&?).
    assert (1 ≤ channels_col g) by (unfold channels_col; nia).
    rewrite Unfold_loops in Hsome by done.
    rewrite (foldM_None_at (λ s, length (cells s) = length (cells out)) _ _
               (channels_col g - 1, height_col g - 1, width_col g - 1))
      in Hsome; [by destruct Hsome|..|done].
    + intros [[c h] w] s s' Hs Hlen. unfold im2col_body in Hs.
      destruct (_ && _) in Hs.
      * destruct (load image _) in Hs; [|done]. simpl in Hs.
        apply store_length in Hs. lia.
      * apply store_length in Hs. lia.
    + apply elem_of_triples. lia.
    + intros s Hlen.
      assert (store_fails : ∀ v, store s
        (slot g (height_col g - 1) (width_col g - 1) (channels_col g - 1)) v = None).
      { intros v. apply store_None. unfold slot, patch_size in *. lia. }
      unfold im2col_body. destruct (_ && _); [|done].
      destruct (load image _); simpl; [apply store_fails|done].
  - intros Hout.
    by destruct (Unfold_spec_ge g image out Hpos Hfit Him Hout) as (out' & -> & _).
Qed.

Lemma unfold_returns_iff_witness :
  is_Some (Unfold g443 image16 (fresh (replicate 35 7))) ↔ 36 ≤ 35.
Proof.
  exact (unfold_returns_iff g443 image16 (fresh (replicate 35 7))
           ltac:(unfold positive_sizes; simpl; lia)
           ltac:(vm_compute; intuition discriminate)
           ltac:(vm_compute; congruence) ltac:(vm_compute; congruence)
           ltac:(vm_compute; congruence)).
Defined.

(** X4. On a geometry with positive sizes and a patch matrix of at least
    [patch_size] cells, Fold returns exactly when the image buffer has at
    least [image_size] cells; on a shorter one the zero-filling loop
    already stores out of bounds.
    All sizes are positive and fit in [int] arithmetic. *)
Theorem fold_returns_iff `{Scalar Dtype} (g : geometry)
    (patch : list Dtype) (im : outbuf Dtype) :
  positive_sizes g → fits_int g →
  patch_size g ≤ Z.of_nat (length patch) →
  is_Some (Fold g patch im) ↔ image_size g ≤ Z.of_nat (length (cells im)).
Proof.
  intros Hpos Hfit Hp. split.
  - intros Hsome. destruct (Z_le_gt_dec (image_size g) (Z.of_nat (length (cells im))))
      as [|Hshort]; [done|]. exfalso.
    pose proof Hpos as (?&?&?&?&?&?&?).
    rewrite Fold_loops in Hsome by done. unfold run_stores in Hsome.
    rewrite (foldM_None_at (λ s, length (cells s) = length (cells im)) _ _
               (Z.of_nat (length (cells im)), zero)) in Hsome;
      [by destruct Hsome|..|done].
    + intros y s s' Hs Hlen. apply store_length in Hs. lia.
    + apply list_elem_of_fmap. exists (Z.of_nat (length (cells im))).
      split; [done|]. apply elem_of_seqZ. unfold image_size in Hshort. lia.
    + intros s Hlen. apply store_None. simpl. lia.
  - intros Him.
    by destruct (Fold_spec_ge g patch im Hpos Hfit Hp Him) as (out' & -> & _).
Qed.

Lemma fold_returns_iff_witness :
  is_Some (Fold g443 (replicate 36 1) (fresh (replicate 15 7))) ↔ 16 ≤ 15.
Proof.
  exact (fold_returns_iff g443 (replicate 36 1) (fresh (replicate 15 7))
           ltac:(unfold positive_sizes; simpl; lia)
           ltac:(vm_compute; intuition discriminate)
           ltac:(vm_compute; congruence)).
Defined.

Lemma int_div_zero x : x /ᵢ int 0 = None.
Proof.
  rewrite (int_val 0) by range. destruct x as [a|]; [|reflexivity].
  unfold int_div. cbn [mbind option_bind].
  case_decide as Hd; [reflexivity|]. destruct Hd. by left.
Qed.

Lemma int_height_col_stride0 (g : geometry) :
  stride_h g = 0 → int_height_col g = None.
Proof. intros Hz. unfold int_height_col. by rewrite Hz, int_div_zero. Qed.

Lemma int_width_col_stride0 (g : geometry) :
  stride_w g = 0 → int_width_col g = None.
Proof. intros Hz. unfold int_width_col. by rewrite Hz, int_div_zero. Qed.

(** X5. A zero stride makes both transforms divide by zero, whatever the
    buffers and the other sizes, even when the index space is empty. *)
Theorem zero_stride_undefined `{Scalar Dtype} (g : geometry)
    (image patch : list Dtype) (out im : outbuf Dtype) :
  stride_h g = 0 ∨ stride_w g = 0 →
  Unfold g image out = None ∧ Fold g patch im = None.
Proof.
  intros Hz. split.
  - unfold Unfold, im2col_cpu. fold (int_height_col g) (int_width_col g).
    destruct Hz as [Hz|Hz].
    + by rewrite (int_height_col_stride0 g Hz).
    + rewrite (int_width_col_stride0 g Hz). by destruct (int_height_col g).
  - unfold Fold, col2im_cpu.
    fold (int_image_size g) (int_height_col g) (int_width_col g).
    destruct (int_image_size g) as [n|]; [cbn [mbind option_bind]|done].
    destruct (for_range n _ im); [cbn [mbind option_bind]|done].
    destruct Hz as [Hz|Hz].
    + by rewrite (int_height_col_stride0 g Hz).
    + rewrite (int_width_col_stride0 g Hz). by destruct (int_height_col g).
Qed.

Lemma zero_stride_undefined_witness :
  Unfold g_stride0 image16 (fresh (replicate 36 7)) = None
  ∧ Fold g_stride0 (replicate 36 1) (fresh (replicate 16 7)) = None.
Proof.
  exact (zero_stride_undefined g_stride0 image16 (replicate 36 1)
           (fresh (replicate 36 7)) (fresh (replicate 16 7))
           ltac:(left; reflexivity)).
Defined.

(** ** An empty index space *)

(** X6. When the [channels_col] that the source computes is not positive
    (a kernel size or the channel count is zero, say), no loop body runs,
    so that the remainder by a zero kernel size is never taken: Unfold
    returns the output buffer as it was, and Fold only zero-fills the
    image (the divisions by the strides returning, and the number of
    image cells being computed without wrapping). *)
Theorem empty_index_space `{Scalar Dtype} (g : geometry)
    (image patch : list Dtype) (out im : outbuf Dtype) (hc wc cc : Z) :
  int_height_col g = Some hc → int_width_col g = Some wc →
  int_channels_col g = Some cc →
  cc ≤ 0 →
  int_image_size g = Some (height g * width g * channels g) →
  Z.of_nat (length (cells im)) = height g * width g * channels g →
  Unfold g image out = Some out
  ∧ Fold g patch im =
      Some (OutBuf (replicate (length (cells im)) zero)
              (reverse (zero_stores (height g * width g * channels g)) ++ stores im)).
Proof.
  intros Hh Hw Hc Hcc Hn Him. split.
  - apply (Unfold_skip g image out hc wc cc Hh Hw Hc). tauto.
  - rewrite (Fold_skip g patch im hc wc cc _ Hn Hh Hw Hc) by tauto.
    apply zero_fill, Him.
Qed.

Lemma empty_index_space_witness :
  Unfold g_kernel0 [1; 2; 3; 4] (fresh [7; 7; 7]) = Some (fresh [7; 7; 7])
  ∧ Fold g_kernel0 [5; 5; 5] (fresh [7; 7; 7; 7]) =
      Some (OutBuf [0; 0; 0; 0] [(3, 0); (2, 0); (1, 0); (0, 0)]).
Proof.
  exact (empty_index_space g_kernel0 [1; 2; 3; 4] [5; 5; 5]
           (fresh [7; 7; 7]) (fresh [7; 7; 7; 7]) 0 3 0
           ltac:(reflexivity) ltac:(reflexivity) ltac:(reflexivity)
           ltac:(lia) ltac:(reflexivity) ltac:(reflexivity)).
Defined.

(** ** A kernel that overhangs the padded image *)

(** X7. When the kernel is taller than the padded image by less than one
    stride, the truncating division of the source still yields one output
    row (floor division would yield none); Unfold fills that row, and the
    slots of the last kernel row hold zero since they fall below the
    image.
    All sizes are positive and fit in [int] arithmetic. *)
Theorem overhanging_kernel_one_row `{Scalar Dtype} (g : geometry)
    (image : list Dtype) (out : outbuf Dtype) :
  positive_sizes g → fits_int g → 0 ≤ pad_h g →
  - stride_h g < height g + 2 * pad_h g - kernel_h g < 0 →
  1 ≤ width_col g →
  Z.of_nat (length image) = image_size g →
  Z.of_nat (length (cells out)) = patch_size g →
  height_col g = 1
  ∧ (height g + 2 * pad_h g - kernel_h g) `div` stride_h g + 1 = 0
  ∧ ∃ out' new, Unfold g image out = Some out'
      ∧ stores out' = new ++ stores out
      ∧ length new = Z.to_nat (width_col g * channels_col g)
      ∧ ∀ w c, 0 ≤ w < width_col g → 0 ≤ c < channels_col g →
          dec_h g c = kernel_h g - 1 →
          load (cells out') (slot g 0 w c) = Some zero.
Proof.
  intros Hpos Hfit Hpad Hnum Hwc Him Hout. pose proof Hpos as (?&?&?&?&?&?&?).
  assert (height_col g = 1) as Hhc.
  { unfold height_col.
    assert ((height g + 2 * pad_h g - kernel_h g) ÷ stride_h g = 0) as ->; [|done].
    apply Z.quot_small_iff; [lia|].
    rewrite Z.abs_neq, Z.abs_eq by lia. lia. }
  split_and!; [done| |].
  - assert ((height g + 2 * pad_h g - kernel_h g) `div` stride_h g = -1); [|lia].
    symmetry. apply (Z.div_unique_pos _ _ _
      (height g + 2 * pad_h g - kernel_h g + stride_h g)); lia.
  - destruct (Unfold_spec g image out Hpos Hfit Him Hout)
      as (out' & Hrun & _ & Hlog & Hval).
    exists out', (reverse (unfold_stores g image)). split_and!; [done..| |].
    + pose proof (unfold_slots_perm g image Hwc
        ltac:(unfold channels_col; nia)) as Hperm.
      apply Permutation_length in Hperm.
      rewrite length_fmap, length_seqZ in Hperm.
      rewrite length_reverse, Hperm. unfold patch_size. rewrite Hhc. f_equal. lia.
    + intros w c Hw Hc Hlast.
      assert ((c, 0, w) ∈ triples g) as Ht by (apply elem_of_triples; lia).
      etrans; [apply (Hval _ Ht)|]. f_equal. unfold entry, inside_at.
      destruct (inside g 0 w c) eqn:Hin; [|done].
      apply inside_spec in Hin. unfold row_of in Hin. lia.
Qed.

Lemma overhanging_kernel_one_row_witness :
  height_col g_overhang = 1
  ∧ (height g_overhang + 2 * pad_h g_overhang - kernel_h g_overhang)
      `div` stride_h g_overhang + 1 = 0
  ∧ ∃ out' new, Unfold g_overhang [1; 2; 3; 4] (fresh (replicate 9 7)) = Some out'
      ∧ stores out' = new ++ []
      ∧ length new = Z.to_nat (width_col g_overhang * channels_col g_overhang)
      ∧ ∀ w c, 0 ≤ w < width_col g_overhang → 0 ≤ c < channels_col g_overhang →
          dec_h g_overhang c = kernel_h g_overhang - 1 →
          load (cells out') (slot g_overhang 0 w c) = Some 0.
Proof.
  exact (overhanging_kernel_one_row g_overhang [1; 2; 3; 4] (fresh (replicate 9 7))
           ltac:(unfold positive_sizes; simpl; lia)
           ltac:(vm_compute; intuition discriminate) ltac:(simpl; lia)
           ltac:(simpl; lia) ltac:(vm_compute; congruence)
           ltac:(reflexivity) ltac:(reflexivity)).
Defined.

(** ** Unfold copies and loses nothing *)

Lemma lands_inside (g : geometry) ci r q t :
  0 ≤ r < height g → 0 ≤ q < width g → lands g ci r q t = true →
  inside_at g t = true ∧ target g t = im_offset g ci r q.
Proof.
  destruct t as [[c h] w]. intros Hr Hq (Hc & Hrc & Hqc)%lands_spec.
  split.
  - apply inside_spec. lia.
  - unfold target. by rewrite Hc, Hrc, Hqc.
Qed.

(** X8. Unfold invents no value: every cell of its result is zero or the
    value of some cell of the image.
    All sizes are positive and fit in [int] arithmetic. *)
Theorem unfold_gathers `{Scalar Dtype} (g : geometry)
    (image : list Dtype) (out : outbuf Dtype) :
  positive_sizes g → fits_int g → 1 ≤ width_col g →
  Z.of_nat (length image) = image_size g →
  Z.of_nat (length (cells out)) = patch_size g →
  ∃ out', Unfold g image out = Some out'
    ∧ ∀ v, v ∈ cells out' → v = zero ∨ v ∈ image.
Proof.
  intros Hpos Hfit Hwc Him Hout.
  destruct (Unfold_spec g image out Hpos Hfit Him Hout)
    as (out' & Hrun & Hlen & _ & Hval).
  exists out'. split; [done|]. intros v [i Hi]%list_elem_of_lookup_1.
  pose proof (lookup_lt_Some _ _ _ Hi) as Hlt.
  destruct (slot_surj g (Z.of_nat i)) as (h & w & c & ? & ? & ? & Hs);
    [lia|done| |].
  { destruct Hpos as (?&?&?&?&?&?&?). unfold channels_col. nia. }
  assert ((c, h, w) ∈ triples g) as Ht by by apply elem_of_triples.
  pose proof (Hval _ Ht) as Hv. simpl in Hv. rewrite Hs in Hv.
  unfold load in Hv. rewrite decide_True, Nat2Z.id, Hi in Hv by lia.
  injection Hv as ->. unfold entry.
  pose proof (target_range g _ Hpos Ht) as Hrange.
  destruct (inside_at g (c, h, w)); [right|by left].
  specialize (Hrange eq_refl).
  pose proof (load_value_at image (target g (c, h, w)) ltac:(lia)) as Hl.
  unfold load in Hl. case_decide; [|done].
  by apply list_elem_of_lookup_2 in Hl.
Qed.

Lemma unfold_gathers_witness :
  ∃ out', Unfold g443_pad1 image16 (fresh (replicate 144 7)) = Some out'
    ∧ ∀ v, v ∈ cells out' → v = 0 ∨ v ∈ image16.
Proof.
  exact (unfold_gathers g443_pad1 image16 (fresh (replicate 144 7))
           ltac:(unfold positive_sizes; simpl; lia)
           ltac:(vm_compute; intuition discriminate) ltac:(vm_compute; congruence)
           ltac:(reflexivity) ltac:(reflexivity)).
Defined.

(** X9. Every window lies inside the padded image when the kernel fits
    into it; so without padding the bounds test of Unfold never fails and
    every slot holds a copy of an image cell.
    All sizes are positive and fit in [int] arithmetic. *)
Theorem unfold_windows_fit `{Scalar Dtype} (g : geometry)
    (image : list Dtype) (out : outbuf Dtype) :
  positive_sizes g → fits_int g → 0 ≤ pad_h g → 0 ≤ pad_w g →
  kernel_h g ≤ height g + 2 * pad_h g → kernel_w g ≤ width g + 2 * pad_w g →
  Z.of_nat (length image) = image_size g →
  Z.of_nat (length (cells out)) = patch_size g →
  ∃ out', Unfold g image out = Some out' ∧
    ∀ h w c,
      0 ≤ h < height_col g → 0 ≤ w < width_col g → 0 ≤ c < channels_col g →
      (- pad_h g ≤ row_of g h c < height g + pad_h g
       ∧ - pad_w g ≤ col_of g w c < width g + pad_w g)
      ∧ (pad_h g = 0 → pad_w g = 0 →
         ∃ v, load image (im_offset g (dec_c g c) (row_of g h c) (col_of g w c))
              = Some v
           ∧ load (cells out') (slot g h w c) = Some v).
Proof.
  intros Hpos Hfit Hph Hpw Hkh Hkw Him Hout. pose proof Hpos as (?&?&?&?&?&?&?).
  destruct (Unfold_spec g image out Hpos Hfit Him Hout)
    as (out' & Hrun & _ & _ & Hval).
  exists out'. split; [done|]. intros h w c Hh Hw Hc.
  assert ((c, h, w) ∈ triples g) as Ht by by apply elem_of_triples.
  pose proof (dec_h_range g c). pose proof (dec_w_range g c).
  assert (h * stride_h g ≤ height g + 2 * pad_h g - kernel_h g) as Hrow.
  { unfold height_col in Hh. rewrite Z.quot_div_nonneg in Hh by lia.
    pose proof (Z.mul_div_le (height g + 2 * pad_h g - kernel_h g) (stride_h g)).
    nia. }
  assert (w * stride_w g ≤ width g + 2 * pad_w g - kernel_w g) as Hcol.
  { unfold width_col in Hw. rewrite Z.quot_div_nonneg in Hw by lia.
    pose proof (Z.mul_div_le (width g + 2 * pad_w g - kernel_w g) (stride_w g)).
    nia. }
  assert (0 ≤ h * stride_h g ∧ 0 ≤ w * stride_w g) by nia.
  unfold row_of, col_of. split; [lia|]. intros Hp0 Hq0.
  pose proof (target_range g _ Hpos Ht) as Hrange.
  assert (inside_at g (c, h, w) = true) as Hin.
  { apply inside_spec. unfold row_of, col_of. lia. }
  exists (value_at image (target g (c, h, w))). split.
  - apply load_value_at. specialize (Hrange Hin). lia.
  - etrans; [apply (Hval _ Ht)|]. unfold entry. by rewrite Hin.
Qed.

Lemma unfold_windows_fit_witness :
  ∃ out', Unfold g443 image16 (fresh (replicate 36 7)) = Some out' ∧
    ∀ h w c, 0 ≤ h < 2 → 0 ≤ w < 2 → 0 ≤ c < 9 →
      (- 0 ≤ row_of g443 h c < 4 + 0 ∧ - 0 ≤ col_of g443 w c < 4 + 0)
      ∧ (0 = 0 → 0 = 0 →
         ∃ v, load image16
                (im_offset g443 (dec_c g443 c) (row_of g443 h c) (col_of g443 w c))
              = Some v
           ∧ load (cells out') (slot g443 h w c) = Some v).
Proof.
  exact (unfold_windows_fit g443 image16 (fresh (replicate 36 7))
           ltac:(unfold positive_sizes; simpl; lia)
           ltac:(vm_compute; intuition discriminate)
           ltac:(simpl; lia) ltac:(simpl; lia) ltac:(simpl; lia) ltac:(simpl; lia)
           ltac:(reflexivity) ltac:(reflexivity)).
Defined.

(** X10. When every image location is the target of some index triple,
    Unfold loses nothing: two images with the same unfolding are equal.
    All sizes are positive and fit in [int] arithmetic. *)
Theorem unfold_injective_when_covered `{Scalar Dtype} (g : geometry)
    (image1 image2 : list Dtype) (out1 out2 : outbuf Dtype) :
  positive_sizes g → fits_int g →
  Z.of_nat (length image1) = image_size g →
  Z.of_nat (length image2) = image_size g →
  Z.of_nat (length (cells out1)) = patch_size g →
  Z.of_nat (length (cells out2)) = patch_size g →
  (∀ ci r q, 0 ≤ ci < channels g → 0 ≤ r < height g → 0 ≤ q < width g →
     covering g ci r q ≠ []) →
  ∃ r1 r2, Unfold g image1 out1 = Some r1 ∧ Unfold g image2 out2 = Some r2
    ∧ (cells r1 = cells r2 → image1 = image2).
Proof.
  intros Hpos Hfit Him1 Him2 Hout1 Hout2 Hcov. pose proof Hpos as (?&?&?&?&?&?&?).
  destruct (Unfold_spec g image1 out1 Hpos Hfit Him1 Hout1) as (r1 & Hr1 & _ & _ & Hv1).
  destruct (Unfold_spec g image2 out2 Hpos Hfit Him2 Hout2) as (r2 & Hr2 & _ & _ & Hv2).
  exists r1, r2. split_and!; [done..|]. intros Heq.
  apply load_ext; [lia|]. intros j.
  destruct (decide (0 ≤ j < image_size g)) as [Hj|Hj]; [|outside_both].
  destruct (im_offset_surj g j Hj) as (ci & r & q & Hci & Hr & Hq & <-); [lia..|].
  destruct (covering g ci r q) as [|t l] eqn:Hc; [by destruct (Hcov ci r q)|].
  assert (t ∈ covering g ci r q) as Ht by (rewrite Hc; left).
  apply list_elem_of_filter in Ht as [Hl%Is_true_true Ht].
  destruct (lands_inside g ci r q t Hr Hq Hl) as [Hin Htgt].
  pose proof (Hv1 t Ht) as E1. pose proof (Hv2 t Ht) as E2.
  rewrite Heq, E2 in E1. injection E1 as E.
  unfold entry in E. rewrite Hin, Htgt in E.
  rewrite !load_value_at by lia. by rewrite E.
Qed.

Lemma unfold_injective_when_covered_witness :
  ∃ r1 r2, Unfold g_tile image16 (fresh (replicate 16 7)) = Some r1
    ∧ Unfold g_tile (replicate 16 3) (fresh (replicate 16 9)) = Some r2
    ∧ (cells r1 = cells r2 → image16 = replicate 16 3).
Proof.
  refine (unfold_injective_when_covered g_tile image16 (replicate 16 3)
            (fresh (replicate 16 7)) (fresh (replicate 16 9))
            ltac:(unfold positive_sizes; simpl; lia)
           ltac:(vm_compute; intuition discriminate)
            ltac:(reflexivity) ltac:(reflexivity)
            ltac:(reflexivity) ltac:(reflexivity) _).
  intros ci r q Hci Hr Hq. simpl in Hci, Hr, Hq.
  assert (ci = 0) as -> by lia.
  assert (r = 0 ∨ r = 1 ∨ r = 2 ∨ r = 3) as [->|[->|[->| ->]]] by lia;
    assert (q = 0 ∨ q = 1 ∨ q = 2 ∨ q = 3) as [->|[->|[->| ->]]] by lia;
    by vm_compute.
Defined.

(** ** Unfold is linear, Fold is homogeneous *)

Lemma load_scale k (l : list Z) j : load (scale k l) j = Z.mul k <$> load l j.
Proof. unfold load, scale. case_decide; [apply list_lookup_fmap|done]. Qed.

Lemma value_at_scale k (l : list Z) i : value_at (scale k l) i = k * value_at l i.
Proof.
  unfold value_at. rewrite load_scale.
  destruct (load l i); simpl; [done|]. change (@zero Z Z_Scalar) with 0. lia.
Qed.

Lemma value_at_zip_add (l1 l2 : list Z) i :
  0 ≤ i < Z.of_nat (length l1) → length l1 = length l2 →
  value_at (zip_with Z.add l1 l2) i = value_at l1 i + value_at l2 i.
Proof.
  intros Hi Hlen. unfold value_at at 1.
  by rewrite (load_zip_add l1 l2 i (value_at l1 i) (value_at l2 i))
    by (apply load_value_at; lia).
Qed.

Lemma value_at_replicate n i : value_at (replicate n 0) i = 0.
Proof.
  unfold value_at, load. case_decide; [|done].
  by destruct (replicate _ _ !! _) eqn:Hl;
    [apply lookup_replicate in Hl as [-> _]|].
Qed.

Lemma sumZ_fmap_scale {A} (f : A → Z) (k : Z) (l : list A) :
  sumZ ((λ x, k * f x) <$> l) = k * sumZ (f <$> l).
Proof. induction l as [|a l IH]; csimpl; [lia|]. rewrite IH. lia. Qed.

(** Two buffers of [patch_size] cells that agree on the slots of the
    index space are equal. *)
Lemma cells_by_slots {A} (g : geometry) (l l' : list A) :
  positive_sizes g → 1 ≤ width_col g →
  Z.of_nat (length l) = patch_size g → Z.of_nat (length l') = patch_size g →
  (∀ t, t ∈ triples g → load l (slot_of g t) = load l' (slot_of g t)) →
  l = l'.
Proof.
  intros Hpos Hwc Hl Hl' Heq. apply load_ext; [lia|]. intros j.
  destruct (decide (0 ≤ j < patch_size g)) as [Hj|Hj]; [|outside_both].
  destruct (slot_surj g j) as (h & w & c & ? & ? & ? & <-); [done..| |].
  { destruct Hpos as (?&?&?&?&?&?&?). unfold channels_col. nia. }
  apply (Heq (c, h, w)). by apply elem_of_triples.
Qed.

(** X11. Over the integers Unfold is additive in the image: the unfolding
    of a cell-wise sum is the cell-wise sum of the unfoldings, and the
    unfolding of the all-zero image is the all-zero patch matrix.
    All sizes are positive and fit in [int] arithmetic. *)
Theorem unfold_additive (g : geometry) (x1 x2 : list Z) (b1 b2 b12 b0 : outbuf Z) :
  positive_sizes g → fits_int g → 1 ≤ width_col g →
  Z.of_nat (length x1) = image_size g → Z.of_nat (length x2) = image_size g →
  Z.of_nat (length (cells b1)) = patch_size g →
  Z.of_nat (length (cells b2)) = patch_size g →
  Z.of_nat (length (cells b12)) = patch_size g →
  Z.of_nat (length (cells b0)) = patch_size g →
  ∃ r1 r2 r12 r0,
    Unfold g x1 b1 = Some r1 ∧ Unfold g x2 b2 = Some r2
    ∧ Unfold g (zip_with Z.add x1 x2) b12 = Some r12
    ∧ cells r12 = zip_with Z.add (cells r1) (cells r2)
    ∧ Unfold g (replicate (length x1) 0) b0 = Some r0
    ∧ cells r0 = replicate (Z.to_nat (patch_size g)) 0.
Proof.
  intros Hpos Hfit Hwc Hx1 Hx2 Hb1 Hb2 Hb12 Hb0.
  destruct (Unfold_spec g x1 b1) as (r1 & Hr1 & Hlen1 & _ & Hv1); [done..|].
  destruct (Unfold_spec g x2 b2) as (r2 & Hr2 & Hlen2 & _ & Hv2); [done..|].
  destruct (Unfold_spec g (zip_with Z.add x1 x2) b12)
    as (r12 & Hr12 & Hlen12 & _ & Hv12); [done|done|rewrite length_zip_with; lia|done|].
  destruct (Unfold_spec g (replicate (length x1) 0) b0)
    as (r0 & Hr0 & Hlen0 & _ & Hv0); [done|done|rewrite length_replicate; lia|done|].
  exists r1, r2, r12, r0. split_and!; try done.
  - apply (cells_by_slots g); [done|done|lia|rewrite length_zip_with; lia|].
    intros t Ht.
    rewrite (load_zip_add _ _ _ _ _ (Hv1 t Ht) (Hv2 t Ht)), Hv12 by done.
    f_equal. unfold entry.
    pose proof (target_range g t Hpos Ht) as Hrange.
    destruct (inside_at g t); [|done].
    apply value_at_zip_add; [specialize (Hrange eq_refl)|]; lia.
  - apply (cells_by_slots g); [done|done|lia|rewrite length_replicate; lia|].
    intros t Ht. pose proof (slot_of_range g t Ht).
    rewrite Hv0 by done. unfold load.
    rewrite decide_True, lookup_replicate_2 by lia. f_equal.
    unfold entry. destruct (inside_at g t); [|done].
    by apply value_at_replicate.
Qed.

Lemma unfold_additive_witness :
  ∃ r1 r2 r12 r0,
    Unfold g443 image16 (fresh (replicate 36 7)) = Some r1
    ∧ Unfold g443 (replicate 16 2) (fresh (replicate 36 8)) = Some r2
    ∧ Unfold g443 (zip_with Z.add image16 (replicate 16 2))
        (fresh (replicate 36 9)) = Some r12
    ∧ cells r12 = zip_with Z.add (cells r1) (cells r2)
    ∧ Unfold g443 (replicate 16 0) (fresh (replicate 36 5)) = Some r0
    ∧ cells r0 = replicate 36 0.
Proof.
  exact (unfold_additive g443 image16 (replicate 16 2)
           (fresh (replicate 36 7)) (fresh (replicate 36 8))
           (fresh (replicate 36 9)) (fresh (replicate 36 5))
           ltac:(unfold positive_sizes; simpl; lia)
           ltac:(vm_compute; intuition discriminate) ltac:(vm_compute; congruence)
           ltac:(reflexivity) ltac:(reflexivity) ltac:(reflexivity)
           ltac:(reflexivity) ltac:(reflexivity) ltac:(reflexivity)).
Defined.

(** X12. Over the integers both transforms commute with scaling: the
    unfolding of [k] times an image is [k] times its unfolding, and the
    fold of [k] times a patch matrix is [k] times its fold.
    All sizes are positive and fit in [int] arithmetic. *)
Theorem transforms_homogeneous (g : geometry) (k : Z) (x p : list Z)
    (pb pb' ib ib' : outbuf Z) :
  positive_sizes g → fits_int g → 1 ≤ width_col g →
  Z.of_nat (length x) = image_size g → Z.of_nat (length p) = patch_size g →
  Z.of_nat (length (cells pb)) = patch_size g →
  Z.of_nat (length (cells pb')) = patch_size g →
  Z.of_nat (length (cells ib)) = image_size g →
  Z.of_nat (length (cells ib')) = image_size g →
  ∃ u u' f f',
    Unfold g x pb = Some u ∧ Unfold g (scale k x) pb' = Some u'
    ∧ cells u' = scale k (cells u)
    ∧ Fold g p ib = Some f ∧ Fold g (scale k p) ib' = Some f'
    ∧ cells f' = scale k (cells f).
Proof.
  intros Hpos Hfit Hwc Hx Hp Hpb Hpb' Hib Hib'.
  destruct (Unfold_spec g x pb) as (u & Hu & Hlenu & _ & Hvu); [done..|].
  destruct (Unfold_spec g (scale k x) pb')
    as (u' & Hu' & Hlenu' & _ & Hvu');
    [done|done|unfold scale; rewrite length_fmap; lia|done|].
  destruct (Fold_spec g p ib) as (f & ? & Hf & Hlenf & _ & _ & Hvf); [done..|].
  destruct (Fold_spec g (scale k p) ib')
    as (f' & ? & Hf' & Hlenf' & _ & _ & Hvf');
    [done|done|unfold scale; rewrite length_fmap; lia|done|].
  exists u, u', f, f'. split_and!; try done.
  - apply (cells_by_slots g); [done|done|lia|unfold scale; rewrite length_fmap; lia|].
    intros t Ht. rewrite load_scale, Hvu', Hvu by done. simpl. f_equal.
    unfold entry. destruct (inside_at g t).
    + apply value_at_scale.
    + change (@zero Z Z_Scalar) with 0. lia.
  - apply load_ext; [unfold scale; rewrite length_fmap; lia|]. intros j.
    destruct (decide (0 ≤ j < image_size g)) as [Hj|Hj].
    + rewrite load_scale, Hvf', Hvf by done. simpl. f_equal.
      rewrite !added_at_fold_adds.
      rewrite (foldl_add_sumZ 0 (_ <$> _)), (foldl_add_sumZ 0 (_ <$> _)).
      change (@zero Z Z_Scalar) with 0. rewrite !Z.add_0_l.
      rewrite <-sumZ_fmap_scale. f_equal. apply list_fmap_ext.
      intros _ t _. apply value_at_scale.
    + etrans; [|symmetry]; apply load_None_iff;
        unfold scale; rewrite ?length_fmap; lia.
Qed.

Lemma transforms_homogeneous_witness :
  ∃ u u' f f',
    Unfold g443 image16 (fresh (replicate 36 7)) = Some u
    ∧ Unfold g443 (scale 3 image16) (fresh (replicate 36 8)) = Some u'
    ∧ cells u' = scale 3 (cells u)
    ∧ Fold g443 (seqZ 1 36) (fresh (replicate 16 7)) = Some f
    ∧ Fold g443 (scale 3 (seqZ 1 36)) (fresh (replicate 16 8)) = Some f'
    ∧ cells f' = scale 3 (cells f).
Proof.
  exact (transforms_homogeneous g443 3 image16 (seqZ 1 36)
           (fresh (replicate 36 7)) (fresh (replicate 36 8))
           (fresh (replicate 16 7)) (fresh (replicate 16 8))
           ltac:(unfold positive_sizes; simpl; lia)
           ltac:(vm_compute; intuition discriminate) ltac:(vm_compute; congruence)
           ltac:(reflexivity) ltac:(reflexivity) ltac:(reflexivity)
           ltac:(reflexivity) ltac:(reflexivity) ltac:(reflexivity)).
Defined.

(** ** Fold after Unfold, in general *)

(** X13. Over the integers, Fold of the result of Unfold multiplies every
    image cell by its coverage count: the number of index triples that
    decode to its location.
    All sizes are positive and fit in [int] arithmetic. *)
Theorem fold_unfold_scales_by_coverage (g : geometry) (image : list Z)
    (pbuf ibuf : outbuf Z) :
  positive_sizes g → fits_int g →
  Z.of_nat (length image) = image_size g →
  Z.of_nat (length (cells pbuf)) = patch_size g →
  Z.of_nat (length (cells ibuf)) = image_size g →
  ∃ p out, Unfold g image pbuf = Some p
    ∧ Fold g (cells p) ibuf = Some out
    ∧ ∀ ci r q, 0 ≤ ci < channels g → 0 ≤ r < height g → 0 ≤ q < width g →
        ∃ v, load image (im_offset g ci r q) = Some v
          ∧ load (cells out) (im_offset g ci r q)
            = Some (Z.of_nat (length (covering g ci r q)) * v).
Proof.
  intros Hpos Hfit Him Hpbuf Hibuf.
  destruct (Unfold_spec g image pbuf Hpos Hfit Him Hpbuf)
    as (p & Hp & Hplen & _ & Hpval).
  destruct (Fold_value g (cells p) ibuf Hpos Hfit) as (out & ? & Hout & _ & _ & _ & Hval);
    [lia|done|].
  exists p, out. split_and!; [done..|]. intros ci r q Hci Hr Hq.
  pose proof (im_offset_range g ci r q Hci Hr Hq) as Hrange.
  exists (value_at image (im_offset g ci r q)). split.
  - apply load_value_at. lia.
  - rewrite (Hval ci r q Hci Hr Hq). f_equal.
    etrans; [apply foldl_add_sumZ|]. rewrite Z.add_0_l.
    rewrite (sumZ_fmap_const _ (value_at image (im_offset g ci r q))); [lia|].
    intros t Ht. apply list_elem_of_filter in Ht as [Hl%Is_true_true Ht].
    destruct (lands_inside g ci r q t Hr Hq Hl) as [Hin Htgt].
    unfold value_at at 1. rewrite (Hpval t Ht). simpl.
    unfold entry. by rewrite Hin, Htgt.
Qed.

Lemma fold_unfold_scales_by_coverage_witness :
  ∃ p out, Unfold g443 image16 (fresh (replicate 36 7)) = Some p
    ∧ Fold g443 (cells p) (fresh (replicate 16 9)) = Some out
    ∧ ∀ ci r q, 0 ≤ ci < 1 → 0 ≤ r < 4 → 0 ≤ q < 4 →
        ∃ v, load image16 (im_offset g443 ci r q) = Some v
          ∧ load (cells out) (im_offset g443 ci r q)
            = Some (Z.of_nat (length (covering g443 ci r q)) * v).
Proof.
  exact (fold_unfold_scales_by_coverage g443 image16
           (fresh (replicate 36 7)) (fresh (replicate 16 9))
           ltac:(unfold positive_sizes; simpl; lia)
           ltac:(vm_compute; intuition discriminate)
           ltac:(reflexivity) ltac:(reflexivity) ltac:(reflexivity)).
Defined.

(** ** The coverage count is rows times columns *)

Lemma length_pairs {A B} (la : list A) (lb : list B) :
  length (a ← la; b ← lb; [(a, b)]) = (length la * length lb)%nat.
Proof.
  induction la as [|a la IH]; [done|].
  rewrite bind_cons, length_app, IH. simpl. f_equal.
  clear. induction lb as [|b lb IH]; [done|]. rewrite bind_cons. simpl.
  by rewrite IH.
Qed.

Lemma NoDup_pairs {A B} (la : list A) (lb : list B) :
  NoDup la → NoDup lb → NoDup (a ← la; b ← lb; [(a, b)]).
Proof.
  intros Ha Hb. apply NoDup_bind; [| |done].
  - intros a1 a2 [a b] _ _ H1 H2.
    apply list_elem_of_bind in H1 as (? & H1%list_elem_of_singleton & _).
    apply list_elem_of_bind in H2 as (? & H2%list_elem_of_singleton & _).
    congruence.
  - intros a _. apply NoDup_bind; [| |done].
    + intros b1 b2 [a' b] _ _ H1%list_elem_of_singleton H2%list_elem_of_singleton.
      congruence.
    + intros b _. apply NoDup_singleton.
Qed.

Lemma elem_of_pairs {A B} (la : list A) (lb : list B) a b :
  (a, b) ∈ (a ← la; b ← lb; [(a, b)]) ↔ a ∈ la ∧ b ∈ lb.
Proof.
  rewrite list_elem_of_bind. split.
  - intros (a' & Hin & Ha). apply list_elem_of_bind in Hin as (b' & Hin & Hb).
    apply list_elem_of_singleton in Hin. by simplify_eq.
  - intros [Ha Hb]. exists a. split; [|done].
    apply list_elem_of_bind. exists b. split; [|done].
    by apply list_elem_of_singleton.
Qed.

(** The triples that land on a location are, one for one, the pairs of a
    window row and a window column containing it. *)
Lemma covering_windows (g : geometry) ci r q :
  positive_sizes g → 0 ≤ ci < channels g →
  covering g ci r q ≡ₚ
    (λ hw, (compose g ci (r - (hw.1 * stride_h g - pad_h g))
                         (q - (hw.2 * stride_w g - pad_w g)), hw.1, hw.2))
      <$> windows g r q.
Proof.
  intros (?&?&?&?&?&?&?) Hci.
  assert (NoDup (windows g r q)) as Hnd.
  { apply NoDup_pairs; apply NoDup_filter, NoDup_seqZ. }
  apply NoDup_Permutation.
  - apply NoDup_filter, NoDup_triples.
  - apply NoDup_fmap_2_strong; [|done]. intros [h w] [h' w'] _ _ Heq.
    by simplify_eq/=.
  - intros [[c h] w]. unfold covering.
    rewrite list_elem_of_filter, list_elem_of_fmap, Is_true_true, lands_spec,
      elem_of_triples.
    pose proof (dec_h_range g c). pose proof (dec_w_range g c). split.
    + intros ((Hc & Hrc & Hqc) & Hcr & Hhr & Hwr). exists (h, w). split.
      * simpl. f_equal. f_equal. unfold compose.
        rewrite (dec_compose g c) at 1 by lia.
        unfold row_of in Hrc. unfold col_of in Hqc. rewrite Hc.
        replace (dec_h g c) with (r - (h * stride_h g - pad_h g)) by lia.
        replace (dec_w g c) with (q - (w * stride_w g - pad_w g)) by lia.
        done.
      * apply elem_of_pairs. unfold row_cover, col_cover.
        rewrite !list_elem_of_filter, !elem_of_seqZ.
        unfold row_of in Hrc. unfold col_of in Hqc. lia.
    + intros ([h' w'] & Heq & Hin). simpl in Heq. simplify_eq.
      apply elem_of_pairs in Hin as [Hh Hw].
      apply list_elem_of_filter in Hh as [Hi Hh].
      apply list_elem_of_filter in Hw as [Hj Hw].
      apply elem_of_seqZ in Hh, Hw.
      destruct (dec_of_compose g ci _ _ Hi Hj) as (Hdc & Hdh & Hdw).
      pose proof (compose_range g ci _ _ ltac:(lia) ltac:(lia) Hci Hi Hj).
      unfold compose, row_of, col_of. rewrite Hdc, Hdh, Hdw. lia.
Qed.

(** X14. Over the integers, Fold of the all-ones patch matrix leaves at
    every image location the number of output rows whose window contains
    its row times the number of output columns whose window contains its
    column: the coverage count factors, and is the same in every
    channel.
    All sizes are positive and fit in [int] arithmetic. *)
Theorem fold_ones_rows_times_columns (g : geometry) (im : outbuf Z) :
  positive_sizes g → fits_int g → 1 ≤ height_col g → 1 ≤ width_col g →
  Z.of_nat (length (cells im)) = image_size g →
  ∃ out, Fold g (replicate (Z.to_nat (patch_size g)) 1) im = Some out ∧
    ∀ ci r q, 0 ≤ ci < channels g → 0 ≤ r < height g → 0 ≤ q < width g →
      load (cells out) (im_offset g ci r q)
      = Some (Z.of_nat (length (row_cover g r)) * Z.of_nat (length (col_cover g q))).
Proof.
  intros Hpos Hfit Hhc Hwc Hb.
  assert (0 ≤ patch_size g).
  { destruct Hpos as (?&?&?&?&?&?&?). unfold patch_size, channels_col. nia. }
  destruct (Fold_value g (replicate (Z.to_nat (patch_size g)) 1) im)
    as (out & later & Hrun & _ & _ & _ & Hval);
    [done|done|rewrite length_replicate; lia|done|].
  exists out. split; [done|]. intros ci r q Hci Hr Hq.
  etrans; [apply (Hval ci r q Hci Hr Hq)|]. f_equal.
  etrans; [apply foldl_add_sumZ|]. rewrite Z.add_0_l.
  rewrite (sumZ_fmap_const _ 1).
  - rewrite (Permutation_length (covering_windows g ci r q Hpos Hci)).
    rewrite length_fmap. unfold windows. rewrite length_pairs. lia.
  - intros t Ht. apply list_elem_of_filter in Ht as [_ Ht].
    pose proof (slot_of_range g t Ht).
    unfold value_at, load. rewrite decide_True by lia.
    rewrite lookup_replicate_2; [done|lia].
Qed.

Lemma fold_ones_rows_times_columns_witness :
  ∃ out, Fold g443 (replicate 36 1) (fresh (replicate 16 7)) = Some out ∧
    ∀ ci r q, 0 ≤ ci < 1 → 0 ≤ r < 4 → 0 ≤ q < 4 →
      load (cells out) (im_offset g443 ci r q)
      = Some (Z.of_nat (length (row_cover g443 r))
              * Z.of_nat (length (col_cover g443 q))).
Proof.
  exact (fold_ones_rows_times_columns g443 (fresh (replicate 16 7))
           ltac:(unfold positive_sizes; simpl; lia)
           ltac:(vm_compute; intuition discriminate)
           ltac:(vm_compute; congruence) ltac:(vm_compute; congruence)
           ltac:(reflexivity)).
Defined.

(** ** Fold is the adjoint of Unfold *)

Lemma sumZ_app (l k : list Z) : sumZ (l ++ k) = sumZ l + sumZ k.
Proof. induction l as [|a l IH]; simpl; [done|]. rewrite IH. lia. Qed.

Lemma sumZ_Permutation (l k : list Z) : l ≡ₚ k → sumZ l = sumZ k.
Proof. induction 1; simpl; lia. Qed.

Lemma sumZ_filter_zero {A} (P : A → Prop) `{!∀ x, Decision (P x)}
    (f : A → Z) (l : list A) :
  (∀ a, a ∈ l → ¬ P a → f a = 0) →
  sumZ (f <$> l) = sumZ (f <$> filter P l).
Proof.
  induction l as [|a l IH]; intros Hf; [done|].
  assert (sumZ (f <$> l) = sumZ (f <$> filter P l)) as Hl
    by (apply IH; intros; apply Hf; [by right|done]).
  destruct (decide (P a)).
  - rewrite filter_cons_True by done. csimpl. by rewrite Hl.
  - rewrite filter_cons_False by done. csimpl. rewrite Hl, Hf; [done|left|done].
Qed.

Lemma sumZ_indicator (k v n : Z) :
  0 ≤ k < n → sumZ ((λ j, if decide (k = j) then v else 0) <$> seqZ 0 n) = v.
Proof.
  intros Hk. replace n with (k + (n - k)) by lia.
  rewrite seqZ_app by lia. rewrite (seqZ_cons (0 + k)) by lia.
  rewrite fmap_app, fmap_cons, sumZ_app. simpl.
  rewrite decide_True by lia.
  rewrite !(sumZ_fmap_const _ 0); [lia|..].
  - intros j Hj%elem_of_seqZ. rewrite decide_False; [done|lia].
  - intros j Hj%elem_of_seqZ. rewrite decide_False; [done|lia].
Qed.

(** A sum over a list, grouped by a key with values in [0, n). *)
Lemma sumZ_partition {A} (key f : A → Z) (l : list A) (n : Z) :
  (∀ a, a ∈ l → 0 ≤ key a < n) →
  sumZ ((λ j, sumZ (f <$> filter (λ a, key a = j) l)) <$> seqZ 0 n)
  = sumZ (f <$> l).
Proof.
  induction l as [|a l IH]; intros Hkey.
  { csimpl. by rewrite (sumZ_fmap_const _ 0); [lia|]. }
  etrans; [apply (sumZ_fmap_add (λ j, if decide (key a = j) then f a else 0)
                    (λ j, sumZ (f <$> filter (λ a, key a = j) l)))|].
  - intros j _. destruct (decide (key a = j)).
    + by rewrite filter_cons_True by done.
    + rewrite filter_cons_False by done. lia.
  - rewrite sumZ_indicator by (apply Hkey; left).
    rewrite IH by (intros; apply Hkey; by right). done.
Qed.

Lemma list_as_values (l : list Z) :
  l = (λ j, value_at l j) <$> seqZ 0 (Z.of_nat (length l)).
Proof.
  apply list_eq. intros i. rewrite list_lookup_fmap.
  destruct (decide (i < length l)%nat) as [Hi|Hi].
  - rewrite lookup_seqZ_lt, Z.add_0_l by lia.
    destruct (lookup_lt_is_Some_2 l i Hi) as [x Hx]. rewrite Hx.
    change (Some x = Some (value_at l (Z.of_nat i))). f_equal.
    unfold value_at, load. rewrite decide_True, Nat2Z.id, Hx by lia. done.
  - rewrite lookup_seqZ_ge, lookup_ge_None_2 by lia. done.
Qed.

Lemma dot_values (l1 l2 : list Z) (n : Z) :
  Z.of_nat (length l1) = n → Z.of_nat (length l2) = n →
  dot l1 l2 = sumZ ((λ j, value_at l1 j * value_at l2 j) <$> seqZ 0 n).
Proof.
  intros H1 H2. unfold dot. f_equal.
  etrans; [apply (f_equal2 (zip_with Z.mul)
                    (list_as_values l1) (list_as_values l2))|].
  rewrite H1, H2, zip_with_fmap_l, zip_with_fmap_r, zip_with_diag. done.
Qed.

(** X15. Over the integers Fold is the adjoint of Unfold: the inner
    product of the unfolding of an image [x] with a patch matrix [y] is
    the inner product of [x] with the fold of [y].
    All sizes are positive and fit in [int] arithmetic. *)
Theorem fold_adjoint_of_unfold (g : geometry) (x y : list Z)
    (pbuf ibuf : outbuf Z) :
  positive_sizes g → fits_int g → 1 ≤ width_col g →
  Z.of_nat (length x) = image_size g → Z.of_nat (length y) = patch_size g →
  Z.of_nat (length (cells pbuf)) = patch_size g →
  Z.of_nat (length (cells ibuf)) = image_size g →
  ∃ p im, Unfold g x pbuf = Some p ∧ Fold g y ibuf = Some im
    ∧ dot (cells p) y = dot x (cells im).
Proof.
  intros Hpos Hfit Hwc Hx Hy Hpbuf Hibuf.
  destruct (Unfold_spec g x pbuf Hpos Hfit Hx Hpbuf) as (p & Hp & Hplen & _ & Hpval).
  destruct (Fold_spec g y ibuf Hpos Hfit Hy Hibuf)
    as (im & ? & Him & Hilen & _ & _ & Hival).
  exists p, im. split_and!; [done..|].
  set (term := λ t, value_at x (target g t) * value_at y (slot_of g t)).
  trans (sumZ (term <$> filter (inside_at g) (triples g))).
  - rewrite (dot_values _ _ (patch_size g)) by lia.
    assert (1 ≤ channels_col g)
      by (destruct Hpos as (?&?&?&?&?&?&?); unfold channels_col; nia).
    rewrite <-(sumZ_Permutation _ _
      (fmap_Permutation _ _ _ (unfold_slots_perm g x Hwc ltac:(done)))).
    unfold unfold_stores. rewrite <-!list_fmap_compose.
    assert (∀ t, t ∈ triples g →
      value_at (cells p) (slot_of g t) = entry g x t) as Hentry.
    { intros t Ht. unfold value_at. by rewrite (Hpval t Ht). }
    etrans; [apply (sumZ_filter_zero (inside_at g))|].
    + intros t Ht Hin. simpl. rewrite (Hentry t Ht). unfold entry.
      destruct (inside_at g t); [by destruct Hin|].
      change (@zero Z Z_Scalar) with 0. lia.
    + f_equal. apply list_fmap_ext. intros _ t Ht%list_elem_of_lookup_2. simpl.
      apply list_elem_of_filter in Ht as [Hin%Is_true_true Ht].
      rewrite (Hentry t Ht). unfold term, entry. by rewrite Hin.
  - rewrite (dot_values _ _ (image_size g)) by lia.
    rewrite <-(sumZ_partition (target g) term _ (image_size g)).
    + f_equal. apply list_fmap_ext. intros _ j Hj%list_elem_of_lookup_2.
      apply elem_of_seqZ in Hj.
      unfold value_at at 2. rewrite Hival by lia. simpl.
      rewrite added_at_fold_adds.
      rewrite (foldl_add_sumZ 0 (_ <$> _)).
      change (@zero Z Z_Scalar) with 0. rewrite Z.add_0_l.
      rewrite <-sumZ_fmap_scale. f_equal. apply list_fmap_ext.
      intros _ t Ht%list_elem_of_lookup_2.
      apply list_elem_of_filter in Ht as [<- _]. done.
    + intros t Ht. apply list_elem_of_filter in Ht as [Hin%Is_true_true Ht].
      by apply target_range.
Qed.

Lemma fold_adjoint_of_unfold_witness :
  ∃ p im, Unfold g443 image16 (fresh (replicate 36 7)) = Some p
    ∧ Fold g443 (seqZ 1 36) (fresh (replicate 16 9)) = Some im
    ∧ dot (cells p) (seqZ 1 36) = dot image16 (cells im).
Proof.
  exact (fold_adjoint_of_unfold g443 image16 (seqZ 1 36)
           (fresh (replicate 36 7)) (fresh (replicate 16 9))
           ltac:(unfold positive_sizes; simpl; lia)
           ltac:(vm_compute; intuition discriminate) ltac:(vm_compute; congruence)
           ltac:(reflexivity) ltac:(reflexivity)
           ltac:(reflexivity) ltac:(reflexivity)).
Defined.

(** ** Fold overwrites *)

(** A run of additions makes the same stores, and leaves the same cells,
    whatever was logged before it. *)
Lemma run_adds_log `{Scalar Dtype} (us : list (Z * Dtype)) cs st st' r :
  run_adds us (OutBuf cs st) = Some r →
  ∃ new, stores r = new ++ st
    ∧ length new = length us
    ∧ run_adds us (OutBuf cs st') = Some (OutBuf (cells r) (new ++ st')).
Proof.
  revert cs st st' r. induction us as [|[i v] us IH]; intros cs st st' r Hr.
  { injection Hr as <-. by exists []. }
  unfold run_adds in *. cbn [foldM] in *. simpl in *.
  destruct (load cs i) as [old|]; [simpl in *|done].
  unfold store in *. simpl in *. case_decide; [simpl in *|done].
  destruct (IH _ _ ((i, add old v) :: st') _ Hr) as (new & Hlog & Hlen & Hrun).
  exists (new ++ [(i, add old v)]). rewrite <-!app_assoc. split_and!; [done| |done].
  rewrite length_app. simpl. lia.
Qed.

(** X16. Fold overwrites its image buffer: two runs on the same patch
    matrix and geometry from different prior contents of the image buffer
    make the same stores, [image_size] zero stores followed by one
    addition for each index triple that lands inside the image, and end
    with identical contents.
    All sizes are positive and fit in [int] arithmetic. *)
Theorem fold_state_free `{Scalar Dtype} (g : geometry)
    (patch : list Dtype) (im1 im2 : outbuf Dtype) :
  positive_sizes g → fits_int g →
  Z.of_nat (length patch) = patch_size g →
  Z.of_nat (length (cells im1)) = image_size g →
  Z.of_nat (length (cells im2)) = image_size g →
  ∃ r1 r2 adds,
    Fold g patch im1 = Some r1 ∧ Fold g patch im2 = Some r2
    ∧ stores r1 = adds ++ reverse (zero_stores (image_size g)) ++ stores im1
    ∧ stores r2 = adds ++ reverse (zero_stores (image_size g)) ++ stores im2
    ∧ length adds = length (filter (inside_at g) (triples g))
    ∧ cells r1 = cells r2.
Proof.
  intros Hpos Hfit Hp Him1 Him2.
  destruct (Fold_spec g patch im1 Hpos Hfit Hp Him1) as (r1 & ? & Hr1 & _).
  pose proof Hr1 as Hrun1. rewrite Fold_run, zero_fill in Hrun1 by done.
  simpl in Hrun1.
  destruct (run_adds_log _ _ _
    (reverse (zero_stores (image_size g)) ++ stores im2) _ Hrun1)
    as (adds & Hlog & Hlen & Hrun2).
  exists r1, (OutBuf (cells r1)
    (adds ++ reverse (zero_stores (image_size g)) ++ stores im2)), adds.
  split_and!; try done.
  - rewrite Fold_run, zero_fill by done. simpl.
    replace (length (cells im2)) with (length (cells im1)) by lia. done.
  - rewrite Hlen. unfold fold_adds. by rewrite length_fmap.
Qed.

Lemma fold_state_free_witness :
  ∃ r1 r2 adds,
    Fold g443 (seqZ 1 36) (fresh (replicate 16 7)) = Some r1
    ∧ Fold g443 (seqZ 1 36) (fresh (replicate 16 (-1))) = Some r2
    ∧ stores r1 = adds ++ reverse (zero_stores (image_size g443)) ++ []
    ∧ stores r2 = adds ++ reverse (zero_stores (image_size g443)) ++ []
    ∧ length adds = length (filter (inside_at g443) (triples g443))
    ∧ cells r1 = cells r2.
Proof.
  exact (fold_state_free g443 (seqZ 1 36)
           (fresh (replicate 16 7)) (fresh (replicate 16 (-1)))
           ltac:(unfold positive_sizes; simpl; lia)
           ltac:(vm_compute; intuition discriminate)
           ltac:(reflexivity) ltac:(reflexivity) ltac:(reflexivity)).
Defined.

(** ** The derived sizes in [int] arithmetic *)

(** X17. On positive sizes that fit, the source computes the derived
    sizes and the number of image cells exactly: nothing wraps and no
    division traps. *)
Theorem sizes_computed_exactly (g : geometry) :
  positive_sizes g → fits_int g →
  int_height_col g = Some (height_col g)
  ∧ int_width_col g = Some (width_col g)
  ∧ int_channels_col g = Some (channels_col g)
  ∧ int_image_size g = Some (image_size g).
Proof.
  intros Hpos Hfit. destruct (fits_header g Hpos Hfit) as (-> & -> & -> & ->).
  split_and!; try reflexivity. f_equal. unfold image_size. lia.
Qed.

Lemma sizes_computed_exactly_witness :
  int_height_col g443 = Some 2 ∧ int_width_col g443 = Some 2
  ∧ int_channels_col g443 = Some 9 ∧ int_image_size g443 = Some 16.
Proof.
  exact (sizes_computed_exactly g443
           ltac:(unfold positive_sizes; simpl; lia)
           ltac:(vm_compute; intuition discriminate)).
Defined.

(** X18. Sizes that do not fit: with [pad_h = 2^30] the product
    [2 * pad_h] wraps, the source computes [height_col = 0] where the
    exact formula gives 2, and Unfold stores nothing. *)
Theorem wrapped_height_col :
  positive_sizes g_wrap
  ∧ height_col g_wrap = 2 ∧ int_height_col g_wrap = Some 0
  ∧ Unfold g_wrap [42] (fresh [7; 7]) = Some (fresh [7; 7]).
Proof. unfold positive_sizes. split_and!; by vm_compute. Qed.

(** X19. With the same padding under the stride [2^30] the source
    computes [height_col = -1] where the exact formula gives 3: Fold
    zero-fills its image and adds nothing to it. *)
Theorem wrapped_height_col_negative :
  positive_sizes g_wrap_neg
  ∧ height_col g_wrap_neg = 3 ∧ int_height_col g_wrap_neg = Some (-1)
  ∧ Fold g_wrap_neg [5; 6; 7] (fresh [9]) = Some (OutBuf [0] [(0, 0)]).
Proof. unfold positive_sizes. split_and!; by vm_compute. Qed.

(** X20. A product [channels * kernel_h * kernel_w] that is negative in
    exact integers and wraps to 2: the loops of Unfold run, over two
    composite indices, one output row and three output columns, and make
    six stores. *)
Theorem wrapped_channels_col :
  channels_col g_wrap_channels = -4294967294
  ∧ int_channels_col g_wrap_channels = Some 2
  ∧ int_height_col g_wrap_channels = Some 1
  ∧ int_width_col g_wrap_channels = Some 3
  ∧ Unfold g_wrap_channels [42] (fresh [7; 7; 7; 7; 7; 7])
    = Some (OutBuf [42; 0; 0; 0; 0; 0]
              [(5, 0); (3, 0); (1, 0); (4, 0); (2, 0); (0, 42)]).
Proof. split_and!; by vm_compute. Qed.

(** X21. With [height * width * channels = 2^31] the bound of the
    zero-filling loop of Fold wraps to [int_min]: the loop does not run
    and the image buffer keeps what it held. *)
Theorem wrapped_zero_fill_bound :
  image_size g_wrap_fill = 2147483648
  ∧ int_image_size g_wrap_fill = Some int_min
  ∧ Fold g_wrap_fill [] (fresh [7; 7]) = Some (fresh [7; 7]).
Proof. split_and!; by vm_compute. Qed.

(** X22. A kernel taller than the padded image by almost [2^32]: the
    excess wraps and the source computes [height_col = 3], so that for
    the source this geometry is not a degenerate one. *)
Theorem wrapped_height_col_positive :
  height_col g_wrap_pos = -4294967293
  ∧ int_height_col g_wrap_pos = Some 3.
Proof. split; by vm_compute. Qed.

(** X23. When the division that computes [height_col] or [width_col]
    traps (a zero stride, or the stride -1 under the dividend
    [int_min]), neither transform returns anything. *)
Theorem trapping_division_undefined `{Scalar Dtype} (g : geometry)
    (image patch : list Dtype) (out im : outbuf Dtype) :
  int_height_col g = None ∨ int_width_col g = None →
  Unfold g image out = None ∧ Fold g patch im = None.
Proof.
  intros Hz. split.
  - unfold Unfold, im2col_cpu. fold (int_height_col g) (int_width_col g).
    destruct Hz as [Hz|Hz]; rewrite Hz; [reflexivity|].
    by destruct (int_height_col g).
  - unfold Fold, col2im_cpu.
    fold (int_image_size g) (int_height_col g) (int_width_col g).
    destruct (int_image_size g) as [n|]; [cbn [mbind option_bind]|done].
    destruct (for_range n _ im); [cbn [mbind option_bind]|done].
    destruct Hz as [Hz|Hz]; rewrite Hz; [reflexivity|].
    by destruct (int_height_col g).
Qed.

Lemma trapping_division_undefined_witness :
  Unfold g_trap [42] (fresh [7; 7]) = None ∧ Fold g_trap [5; 6] (fresh [7]) = None.
Proof.
  exact (trapping_division_undefined g_trap [42] [5; 6] (fresh [7; 7]) (fresh [7])
           ltac:(left; reflexivity)).
Defined.
